(** * The paginated sequence engine of nodejs-paginator

    A shallow embedding of [src/resource-stream.ts]: the class
    [ResourceStream], its constructor, [end] and [_read] together with the
    fetch handler that [_read] hands to the fetch operation.

    The engine is a Node [Transform]; what it asks of the stream layer
    ([push], [destroy], [super.end], [setImmediate]) and of the fetch
    operation ([_requestFn]) is recorded, in order, in a log of effects that
    is threaded through the state.  What the surroundings do to the engine
    (the stream layer or a caller invoking [_read], a queued immediate
    running, the fetch operation calling its handler, the consumer calling
    [end]) is an event of a small transition system. *)

From Stdlib Require Import ZArith Lia Bool.
From stdpp Require Import base list strings gmap.

Local Open Scope Z_scope.

(** ** Data *)

(** Values the engine only carries around; an object is identified by its
    JSON text. *)
Inductive JsVal :=
| JsNum (z : Z)
| JsStr (s : string)
| JsBool (b : bool)
| JsObj (json : string).

(** A query (cursor) is a JS object used as a mapping. *)
Abbreviation Query := (gmap string JsVal).

(** [Error] objects, identified by their message. *)
Definition Err := string.

(** The numbers held in [_maxApiCalls] and [_resultsToSend]: the integers a
    descriptor carries, or [Infinity]. *)
Inductive num :=
| Fin (z : Z)
| Infinity.

(** [x < 1] *)
Definition lt1 (x : num) : bool :=
  match x with
  | Fin z => z <? 1
  | Infinity => false
  end.

(** [z >= x] *)
Definition geq (z : Z) (x : num) : bool :=
  match x with
  | Fin m => m <=? z
  | Infinity => false
  end.

(** [v === -1 ? Infinity : v] *)
Definition orInfinity (v : Z) : num :=
  if v =? -1 then Infinity else Fin v.

(** [!!q] for a value of type [{} | null]: every object is truthy, the empty
    one included; [null] and [undefined] are not. *)
Definition truthy (q : option Query) : bool :=
  match q with
  | Some _ => true
  | None => false
  end.

(** [results.splice(0, n)] for an integer [n]: the first [n] elements, none
    when [n] is negative. *)
Definition splice0 {A} (n : Z) (l : list A) : list A := take (Z.to_nat n) l.

(** The fields of [ParsedArguments] the constructor reads ([streamOptions]
    only reaches the [Transform] constructor).  The caps are the integers of
    a parsed descriptor, [-1] standing for no cap; [query] may be absent. *)
Record ParsedArguments := {
  query : option Query;
  maxApiCalls : Z;
  maxResults : Z
}.

(** How a call of the fetch operation comes back to [_read]: it returns
    (its handler is called then or later), or it throws. *)
Inductive Outcome :=
| Returns
| Throws (e : Err).

(** What a listener does while [push] delivers an item to it. *)
Inductive ConsumerAction :=
| CallEnd
| CallRead.

(** The answer of the stream layer to one [push]: the boolean [push]
    returns, and what the listeners did meanwhile. *)
Record PushReply := {
  more : bool;
  during : list ConsumerAction
}.

Section Engine.

Context {T : Type}.

(** Calls the engine makes, oldest first. *)
Inductive Effect :=
| RequestFn (q : option Query)
| Push (x : T)
| Destroy (e : Err)
| SuperEnd
| SetImmediate.

Record ResourceStream := {
  _ended : bool;
  _maxApiCalls : num;
  _nextQuery : option Query;
  _reading : bool;
  _requestsMade : Z;
  _resultsToSend : num;
  trace : list Effect
}.

Definition set_ended (b : bool) (s : ResourceStream) : ResourceStream :=
  {| _ended := b; _maxApiCalls := _maxApiCalls s; _nextQuery := _nextQuery s;
     _reading := _reading s; _requestsMade := _requestsMade s;
     _resultsToSend := _resultsToSend s; trace := trace s |}.

Definition set_nextQuery (q : option Query) (s : ResourceStream) : ResourceStream :=
  {| _ended := _ended s; _maxApiCalls := _maxApiCalls s; _nextQuery := q;
     _reading := _reading s; _requestsMade := _requestsMade s;
     _resultsToSend := _resultsToSend s; trace := trace s |}.

Definition set_reading (b : bool) (s : ResourceStream) : ResourceStream :=
  {| _ended := _ended s; _maxApiCalls := _maxApiCalls s; _nextQuery := _nextQuery s;
     _reading := b; _requestsMade := _requestsMade s;
     _resultsToSend := _resultsToSend s; trace := trace s |}.

Definition set_requestsMade (z : Z) (s : ResourceStream) : ResourceStream :=
  {| _ended := _ended s; _maxApiCalls := _maxApiCalls s; _nextQuery := _nextQuery s;
     _reading := _reading s; _requestsMade := z;
     _resultsToSend := _resultsToSend s; trace := trace s |}.

Definition set_resultsToSend (x : num) (s : ResourceStream) : ResourceStream :=
  {| _ended := _ended s; _maxApiCalls := _maxApiCalls s; _nextQuery := _nextQuery s;
     _reading := _reading s; _requestsMade := _requestsMade s;
     _resultsToSend := x; trace := trace s |}.

(** Record one call into the surroundings. *)
Definition log (e : Effect) (s : ResourceStream) : ResourceStream :=
  {| _ended := _ended s; _maxApiCalls := _maxApiCalls s; _nextQuery := _nextQuery s;
     _reading := _reading s; _requestsMade := _requestsMade s;
     _resultsToSend := _resultsToSend s; trace := trace s ++ [e] |}.

(** ** The class *)

(** [constructor(args, requestFn)] *)
Definition constructor (args : ParsedArguments) : ResourceStream :=
  {| _ended := false;
     _maxApiCalls := orInfinity (maxApiCalls args);
     _nextQuery := query args;
     _reading := false;
     _requestsMade := 0;
     _resultsToSend := orInfinity (maxResults args);
     trace := [] |}.

(** [end(...args)] *)
Definition end_ (s : ResourceStream) : ResourceStream :=
  log SuperEnd (set_ended true s).

(** [_read()], up to the call of the fetch operation.  The second component
    is the exception that leaves [_read], if any: the call of [_requestFn]
    is not guarded. *)
Definition _read (fetch : Outcome) (s : ResourceStream) : ResourceStream * option Err :=
  if _reading s then (s, None)
  else
    let s := set_reading true s in
    let s := log (RequestFn (_nextQuery s)) s in
    match fetch with
    | Returns => (s, None)
    | Throws e => (s, Some e)
    end.

(** The listeners: what they answer to a [push] may depend on all the engine
    shows at that moment. *)
Definition Consumer := ResourceStream -> T -> PushReply.

Definition act (a : ConsumerAction) (s : ResourceStream) : ResourceStream :=
  match a with
  | CallEnd => end_ s
  | CallRead => fst (_read Returns s)
  end.

(** [this.push(result)]: the item goes downstream, the listeners run, and
    the stream layer answers whether it wants more. *)
Definition push (c : Consumer) (x : T) (s : ResourceStream) : bool * ResourceStream :=
  let r := c s x in
  (more r, foldl (fun s a => act a s) (log (Push x) s) (during r)).

(** [for (const result of results) { if (this._ended) break; more = this.push(result); }] *)
Fixpoint pushAll (c : Consumer) (results : list T) (m : bool) (s : ResourceStream)
  : bool * ResourceStream :=
  match results with
  | [] => (m, s)
  | x :: rest =>
      if _ended s then (m, s)
      else let '(m', s') := push c x s in pushAll c rest m' s'
  end.

(** The arguments the fetch operation passes to its handler:
    [(err, results, nextQuery, ...rest)].  The handler declares the first
    three; JavaScript drops the rest. *)
Record Response := {
  err : option Err;
  results : list T;
  nextQuery : option Query;
  rest : list JsVal
}.

(** The items the handler keeps of a page: all of them without a budget,
    else [results.splice(0, this._resultsToSend)]. *)
Definition kept (budget : num) (l : list T) : list T :=
  match budget with
  | Infinity => l
  | Fin n => splice0 n l
  end.

(** The handler [_read] passes to the fetch operation. *)
Definition handler (c : Consumer) (r : Response) (s : ResourceStream) : ResourceStream :=
  match err r with
  | Some e => log (Destroy e) s
  | None =>
      let s := set_nextQuery (nextQuery r) s in
      let items := kept (_resultsToSend s) (results r) in
      let s :=
        match _resultsToSend s with
        | Infinity => s
        | Fin n => set_resultsToSend (Fin (n - Z.of_nat (length items))) s
        end in
      let '(m, s) := pushAll c items true s in
      let isFinished := negb (truthy (_nextQuery s)) || lt1 (_resultsToSend s) in
      let s := set_requestsMade (_requestsMade s + 1) s in
      let madeMaxCalls := geq (_requestsMade s) (_maxApiCalls s) in
      let s := if isFinished || madeMaxCalls then end_ s else s in
      let s := if m && negb (_ended s) then log SetImmediate s else s in
      set_reading false s
  end.

End Engine.

Arguments Effect : clear implicits.
Arguments ResourceStream : clear implicits.
Arguments Consumer : clear implicits.
Arguments Response : clear implicits.

(** ** What the log shows *)

Section Observations.

Context {T : Type}.

Implicit Types (tr : list (Effect T)) (s : ResourceStream T).

(** The items pushed downstream, in order. *)
Definition pushed tr : list T :=
  omap (fun e => match e with Push x => Some x | _ => None end) tr.

(** The queries the fetch operation was called with, in order. *)
Definition requested tr : list (option Query) :=
  omap (fun e => match e with RequestFn q => Some q | _ => None end) tr.

(** The errors the stream was destroyed with, in order. *)
Definition destroyed tr : list Err :=
  omap (fun e => match e with Destroy x => Some x | _ => None end) tr.

(** How many immediates were queued. *)
Definition immediates tr : nat :=
  length (omap (fun e => match e with SetImmediate => Some tt | _ => None end) tr).

Definition isPush (e : Effect T) : bool :=
  match e with Push _ => true | _ => false end.

Definition isSuperEnd (e : Effect T) : bool :=
  match e with SuperEnd => true | _ => false end.

(** [super.end] was called. *)
Definition hasEnd tr : bool := existsb isSuperEnd tr.

(** The part of the log before the first [super.end]. *)
Fixpoint beforeEnd tr : list (Effect T) :=
  match tr with
  | [] => []
  | e :: tr' => if isSuperEnd e then [] else e :: beforeEnd tr'
  end.

(** No [push] follows a [super.end]. *)
Fixpoint noPushAfterEnd tr : bool :=
  match tr with
  | [] => true
  | e :: tr' =>
      if isSuperEnd e then forallb (fun e => negb (isPush e)) tr'
      else noPushAfterEnd tr'
  end.

(** The log agrees with the [_ended] flag, and nothing was pushed after an
    [end]. *)
Definition wf s : Prop :=
  _ended s = hasEnd (trace s) /\ noPushAfterEnd (trace s) = true.

End Observations.

(** ** The engine in its surroundings *)

Section System.

Context {T : Type}.

(** The engine together with what is pending around it. *)
Record Config := {
  engine : ResourceStream T;
  (** fetch calls that returned and whose handler is still to be called *)
  inflight : nat;
  (** queued immediates that have run *)
  fired : nat;
  (** exceptions that left [_read] *)
  uncaught : list Err
}.

Inductive Event :=
| HostRead (o : Outcome)
    (** the stream layer, or any caller, invokes [_read()] *)
| Immediate (o : Outcome)
    (** a callback queued by [setImmediate] runs: [this._read()] *)
| Callback (c : Consumer T) (r : Response T)
    (** the fetch operation calls the handler of a pending call, once *)
| ConsumerEnd.
    (** the consumer calls [end()] outside of a [push] *)

Definition start (args : ParsedArguments) : Config :=
  {| engine := constructor args; inflight := 0; fired := 0; uncaught := [] |}.

Definition returns (o : Outcome) : bool :=
  match o with
  | Returns => true
  | Throws _ => false
  end.

(** One run of [_read()]. *)
Definition pull (o : Outcome) (cfg : Config) : Config :=
  let '(s, exn) := _read o (engine cfg) in
  {| engine := s;
     inflight :=
       if negb (_reading (engine cfg)) && returns o
       then S (inflight cfg) else inflight cfg;
     fired := fired cfg;
     uncaught := uncaught cfg ++ option_list exn |}.

Definition step (ev : Event) (cfg : Config) : option Config :=
  match ev with
  | HostRead o => Some (pull o cfg)
  | Immediate o =>
      if (fired cfg <? immediates (trace (engine cfg)))%nat
      then Some (pull o {| engine := engine cfg; inflight := inflight cfg;
                           fired := S (fired cfg); uncaught := uncaught cfg |})
      else None
  | Callback c r =>
      match inflight cfg with
      | O => None
      | S k => Some {| engine := handler c r (engine cfg); inflight := k;
                       fired := fired cfg; uncaught := uncaught cfg |}
      end
  | ConsumerEnd =>
      Some {| engine := end_ (engine cfg); inflight := inflight cfg;
              fired := fired cfg; uncaught := uncaught cfg |}
  end.

(** An event that executes [_read]. *)
Definition reads (ev : Event) : bool :=
  match ev with
  | HostRead _ | Immediate _ => true
  | _ => false
  end.

(** Any event may come at any time. *)
Definition anytime (ev : Event) (cfg : Config) : bool := true.

(** [_read] is not executed once the stream has ended. *)
Definition notAfterEnd (ev : Event) (cfg : Config) : bool :=
  negb (reads ev && _ended (engine cfg)).

(** The stream layer does not call [_read] once the stream has ended;
    immediates queued earlier still run. *)
Definition hostBeforeEnd (ev : Event) (cfg : Config) : bool :=
  match ev with
  | HostRead _ => negb (_ended (engine cfg))
  | _ => true
  end.

(** Play the events in order, each one allowed by [guard]. *)
Fixpoint run (guard : Event -> Config -> bool) (evs : list Event) (cfg : Config)
  : option Config :=
  match evs with
  | [] => Some cfg
  | ev :: evs' =>
      if guard ev cfg then
        match step ev cfg with
        | Some cfg' => run guard evs' cfg'
        | None => None
        end
      else None
  end.

(** The configurations that follow [cfg0] when the events obey [guard]. *)
Inductive reachFrom (guard : Event -> Config -> bool) (cfg0 : Config)
  : Config -> Prop :=
| reach_here : reachFrom guard cfg0 cfg0
| reach_step cfg ev cfg' :
    reachFrom guard cfg0 cfg ->
    guard ev cfg = true ->
    step ev cfg = Some cfg' ->
    reachFrom guard cfg0 cfg'.

(** The configurations a stream built from [args] goes through. *)
Definition reach (guard : Event -> Config -> bool) (args : ParsedArguments)
  : Config -> Prop :=
  reachFrom guard (start args).

(** The fetch calls made until now. *)
Definition fetches (cfg : Config) : nat := length (requested (trace (engine cfg))).

End System.

Arguments Config : clear implicits.
Arguments Event : clear implicits.

(** ** What the emission loop leaves untouched *)

Section Frame.

Context {T : Type}.

(** From [s0] to [s] only items were pushed and listeners ran, while a
    fetch was being handled. *)
Record frame (s0 s : ResourceStream T) : Prop := {
  fr_maxApiCalls : _maxApiCalls s = _maxApiCalls s0;
  fr_nextQuery : _nextQuery s = _nextQuery s0;
  fr_requestsMade : _requestsMade s = _requestsMade s0;
  fr_resultsToSend : _resultsToSend s = _resultsToSend s0;
  fr_reading : _reading s = true;
  fr_ended : _ended s0 = true -> _ended s = true;
  fr_requested : requested (trace s) = requested (trace s0);
  fr_destroyed : destroyed (trace s) = destroyed (trace s0);
  fr_immediates : immediates (trace s) = immediates (trace s0);
  fr_wf : wf s;
  fr_extends : exists d, trace s = trace s0 ++ d
}.

End Frame.

(** ** What a successful fetch does to the engine *)

Section Handled.

Context {T : Type}.

(** The budget after a page of [l] items. *)
Definition spend (budget : num) (l : list T) : num :=
  match budget with
  | Infinity => Infinity
  | Fin n => Fin (n - Z.of_nat (length (kept budget l)))
  end.

(** [s'] is [s] after the handler ran on the successful response [r]. *)
Record handled (r : Response T) (s s' : ResourceStream T) : Prop := {
  hd_reading : _reading s' = false;
  hd_nextQuery : _nextQuery s' = nextQuery r;
  hd_requestsMade : _requestsMade s' = _requestsMade s + 1;
  hd_maxApiCalls : _maxApiCalls s' = _maxApiCalls s;
  hd_resultsToSend : _resultsToSend s' = spend (_resultsToSend s) (results r);
  hd_pushed :
    exists j, (j <= length (kept (_resultsToSend s) (results r)))%nat /\
      pushed (trace s') =
        pushed (trace s) ++ take j (kept (_resultsToSend s) (results r)) /\
      (_ended s' = false -> j = length (kept (_resultsToSend s) (results r)));
  hd_requested : requested (trace s') = requested (trace s);
  hd_destroyed : destroyed (trace s') = destroyed (trace s);
  hd_immediates :
    (immediates (trace s) <= immediates (trace s') <= immediates (trace s) + 1)%nat;
  hd_idle : _ended s' = true -> immediates (trace s') = immediates (trace s);
  hd_ended : _ended s = true -> _ended s' = true;
  hd_finished :
    truthy (nextQuery r) = false \/
    lt1 (spend (_resultsToSend s) (results r)) = true \/
    geq (_requestsMade s + 1) (_maxApiCalls s) = true ->
    _ended s' = true;
  hd_wf : wf s';
  hd_extends : exists d, trace s' = trace s ++ d
}.

End Handled.

(** ** Invariants of the system *)

Section Invariants.

Context {T : Type}.

(** What holds of every configuration, whatever the events. *)
Record sound (cfg : Config T) : Prop := {
  sd_inflight : (inflight cfg <= 1)%nat;
  sd_reading : inflight cfg = 1%nat -> _reading (engine cfg) = true;
  sd_wf : wf (engine cfg);
  sd_count :
    Z.of_nat (fetches cfg) =
    _requestsMade (engine cfg) + (if _reading (engine cfg) then 1 else 0);
  sd_destroyed :
    destroyed (trace (engine cfg)) = [] \/
    (inflight cfg = 0%nat /\ _reading (engine cfg) = true)
}.


(** The call cap [n] is respected as long as the stream has not ended. *)
Definition withinCalls (n : Z) (cfg : Config T) : Prop :=
  _maxApiCalls (engine cfg) = Fin n /\
  (_ended (engine cfg) = false -> _requestsMade (engine cfg) < n) /\
  Z.of_nat (length (requested (beforeEnd (trace (engine cfg))))) <= n.

(** Listeners that neither end the stream nor read from it while an item is
    pushed to them. *)
Definition quiet (c : Consumer T) : Prop := forall s x, during (c s x) = [].

End Invariants.

(** ** Scenarios *)

(** A handler call that reports a page. *)
Definition page (items : list string) (next : option Query) : Response string :=
  {| err := None; results := items; nextQuery := next; rest := [] |}.

(** A handler call that reports an error, whatever else it passes. *)
Definition failure (e : Err) (items : list string) : Response string :=
  {| err := Some e; results := items; nextQuery := Some ∅; rest := [] |}.

(** A consumer that takes everything. *)
Definition eager : Consumer string :=
  fun _ _ => {| more := true; during := [] |}.

(** A consumer whose data listener ends the stream when it sees [y]. *)
Definition stopAt (y : string) : Consumer string :=
  fun _ x => {| more := true; during := if String.eqb x y then [CallEnd] else [] |}.

Definition unbounded : ParsedArguments :=
  {| query := Some ∅; maxApiCalls := -1; maxResults := -1 |}.

Definition oneResult : ParsedArguments :=
  {| query := Some ∅; maxApiCalls := -1; maxResults := 1 |}.

Definition twoCalls : ParsedArguments :=
  {| query := Some ∅; maxApiCalls := 2; maxResults := -1 |}.

(** A cursor that is present and not empty. *)
Definition cursor : Query := {[ "pageToken" := JsStr "t1" ]}.

(** Two pages that arrive quickly: the stream layer reads again before the
    immediate queued after the first page has run, the second page ends the
    stream, and then the immediate runs. *)
Definition staleImmediate (c : Consumer string) (second : list string)
  : list (Event string) :=
  [ HostRead Returns; Callback eager (page ["x"] (Some cursor));
    HostRead Returns; Callback c (page second (Some cursor));
    Immediate Returns ].

(** A consumer whose buffer is full: [push] answers [false]. *)
Definition full : Consumer string :=
  fun _ _ => {| more := false; during := [] |}.

(** What a run shows in the end. *)
Definition outcome (cfg : Config string)
  : bool * list string * list (option Query) * nat :=
  (_ended (engine cfg), pushed (trace (engine cfg)),
   requested (trace (engine cfg)), immediates (trace (engine cfg))).

(** ** Serving pages in turn *)

Section Serving.

Context {T : Type}.

(** The stream with [d] added to its log. *)
Definition extend (d : list (Effect T)) (s : ResourceStream T) : ResourceStream T :=
  {| _ended := _ended s; _maxApiCalls := _maxApiCalls s; _nextQuery := _nextQuery s;
     _reading := _reading s; _requestsMade := _requestsMade s;
     _resultsToSend := _resultsToSend s; trace := trace s ++ d |}.

(** [isFinished || madeMaxCalls], as the handler computes it for the
    successful response [r] in state [s]. *)
Definition finishes (r : Response T) (s : ResourceStream T) : bool :=
  negb (truthy (nextQuery r))
  || lt1 (spend (_resultsToSend s) (results r))
  || geq (_requestsMade s + 1) (_maxApiCalls s).

(** Listeners that always want more and do nothing else. *)
Definition greedy (c : Consumer T) : Prop :=
  forall s x, c s x = {| more := true; during := [] |}.

(** The fetch operation answers its calls with [pages], one after the
    other; after each answer the pull the handler queued runs, if there is
    one, and nothing else calls [_read].  Pages that are never asked for
    are left over. *)
Fixpoint feed (c : Consumer T) (pages : list (Response T)) (cfg : Config T)
  : Config T :=
  match pages with
  | [] => cfg
  | p :: ps =>
      match step (Callback c p) cfg with
      | None => cfg
      | Some cfg1 =>
          match step (Immediate Returns) cfg1 with
          | None => cfg1
          | Some cfg2 => feed c ps cfg2
          end
      end
  end.

(** The pages up to the first one that fails (left out) or that has no next
    query (kept). *)
Fixpoint served (pages : list (Response T)) : list (Response T) :=
  match pages with
  | [] => []
  | p :: ps =>
      match err p with
      | Some _ => []
      | None => p :: (if truthy (nextQuery p) then served ps else [])
      end
  end.

(** The first [n] of them, at least one; all of them for [n = -1]. *)
Definition limitCalls (n : Z) (pages : list (Response T)) : list (Response T) :=
  if n =? -1 then pages else take (Z.to_nat (Z.max 1 n)) pages.

(** The first [k] items; all of them for [k = -1]. *)
Definition limitItems (k : Z) (items : list T) : list T :=
  if k =? -1 then items else take (Z.to_nat k) items.

(** What a consumer that takes everything is to receive. *)
Definition delivered (args : ParsedArguments) (pages : list (Response T)) : list T :=
  limitItems (maxResults args)
    (concat (map results (limitCalls (maxApiCalls args) (served pages)))).

(** The items still to come, from a budget, a count of requests and a call
    cap, page by page. *)
Fixpoint deliverFrom (b : num) (m : Z) (cap : num) (pages : list (Response T))
  : list T :=
  match pages with
  | [] => []
  | p :: ps =>
      match err p with
      | Some _ => []
      | None =>
          kept b (results p) ++
          (if negb (truthy (nextQuery p)) || lt1 (spend b (results p)) || geq (m + 1) cap
           then [] else deliverFrom (spend b (results p)) (m + 1) cap ps)
      end
  end.

(** [x <= y] on budgets. *)
Definition num_le (x y : num) : Prop :=
  match x, y with
  | Fin a, Fin b => a <= b
  | Infinity, Infinity => True
  | _, _ => False
  end.

End Serving.

(** ** A listener that ends the stream *)

Section Stopping.

Context {T : Type}.

(** A data listener that calls [end()] on the first item that satisfies
    [P]; the buffer is never full. *)
Definition stopWhen (P : T -> bool) : Consumer T :=
  fun _ x => {| more := true; during := if P x then [CallEnd] else [] |}.

(** The items up to and including the first that satisfies [P]. *)
Fixpoint through (P : T -> bool) (l : list T) : list T :=
  match l with
  | [] => []
  | x :: l' => x :: (if P x then [] else through P l')
  end.

End Stopping.

(** * Properties *)

(** ** The log *)

Section Facts.

Context {T : Type}.

Implicit Types (tr : list (Effect T)) (s : ResourceStream T) (e : Effect T).

Lemma pushed_snoc tr e :
  pushed (tr ++ [e]) = pushed tr ++ match e with Push x => [x] | _ => [] end.
Proof. unfold pushed. rewrite omap_app. by destruct e. Qed.

Lemma requested_snoc tr e :
  requested (tr ++ [e]) = requested tr ++ match e with RequestFn q => [q] | _ => [] end.
Proof. unfold requested. rewrite omap_app. by destruct e. Qed.

Lemma destroyed_snoc tr e :
  destroyed (tr ++ [e]) = destroyed tr ++ match e with Destroy x => [x] | _ => [] end.
Proof. unfold destroyed. rewrite omap_app. by destruct e. Qed.

Lemma immediates_snoc tr e :
  immediates (tr ++ [e]) =
  (immediates tr + match e with SetImmediate => 1 | _ => 0 end)%nat.
Proof. unfold immediates. rewrite omap_app, length_app. by destruct e. Qed.

Lemma hasEnd_snoc tr e : hasEnd (tr ++ [e]) = hasEnd tr || isSuperEnd e.
Proof. unfold hasEnd. rewrite existsb_app. simpl. by rewrite orb_false_r. Qed.

Lemma noPushAfterEnd_snoc tr e :
  noPushAfterEnd (tr ++ [e]) =
  noPushAfterEnd tr && (negb (hasEnd tr) || negb (isPush e)).
Proof.
  induction tr as [|a tr IH]; simpl.
  - by destruct (isSuperEnd e).
  - destruct (isSuperEnd a); simpl.
    + rewrite forallb_app. simpl. by rewrite andb_true_r.
    + exact IH.
Qed.

Lemma beforeEnd_snoc tr e :
  beforeEnd (tr ++ [e]) =
  if hasEnd tr then beforeEnd tr
  else beforeEnd tr ++ (if isSuperEnd e then [] else [e]).
Proof.
  induction tr as [|a tr IH]; simpl.
  - by destruct (isSuperEnd e).
  - destruct (isSuperEnd a); simpl; [done|].
    rewrite IH. by destruct (hasEnd tr).
Qed.

Lemma beforeEnd_all tr : hasEnd tr = false -> beforeEnd tr = tr.
Proof.
  induction tr as [|a tr IH]; simpl; [done|].
  destruct (isSuperEnd a); simpl; [done|]. intros H. by rewrite IH.
Qed.

Lemma noPushAfterEnd_split tr tr1 tr2 x :
  noPushAfterEnd tr = true -> tr = tr1 ++ SuperEnd :: tr2 -> Push x ∉ tr2.
Proof.
  intros H ->. revert H. induction tr1 as [|a tr1 IH]; simpl.
  - intros H Hin. rewrite forallb_forall in H.
    apply list_elem_of_In, H in Hin. discriminate.
  - destruct (isSuperEnd a); [|exact IH].
    rewrite forallb_app. simpl. intros H Hin.
    apply andb_true_iff in H as [_ H]. rewrite forallb_forall in H.
    apply list_elem_of_In, H in Hin. discriminate.
Qed.

(** *** [wf] along the primitive operations *)

Lemma wf_constructor args : wf (constructor (T:=T) args).
Proof. by split. Qed.

Lemma wf_log_push s x : wf s -> _ended s = false -> wf (log (Push x) s).
Proof.
  intros [He Hq] Hn. split; simpl.
  - rewrite hasEnd_snoc. simpl. by rewrite orb_false_r.
  - rewrite noPushAfterEnd_snoc, Hq, <- He, Hn. done.
Qed.

Lemma wf_log_other s e :
  wf s -> isPush e = false -> isSuperEnd e = false -> wf (log e s).
Proof.
  intros [He Hq] Hp Hs. split; simpl.
  - rewrite hasEnd_snoc, Hs. by rewrite orb_false_r.
  - rewrite noPushAfterEnd_snoc, Hq, Hp. simpl. by rewrite orb_true_r.
Qed.

Lemma wf_end s : wf s -> wf (end_ s).
Proof.
  intros [He Hq]. split; simpl.
  - rewrite hasEnd_snoc. simpl. by rewrite orb_true_r.
  - rewrite noPushAfterEnd_snoc, Hq. simpl. by rewrite orb_true_r.
Qed.

(** *** [_read] *)

Lemma read_reading o s : _reading s = true -> _read o s = (s, None).
Proof. intros H. unfold _read. by rewrite H. Qed.

Lemma read_idle o s :
  _reading s = false ->
  _read o s =
  (log (RequestFn (_nextQuery s)) (set_reading true s),
   match o with Returns => None | Throws e => Some e end).
Proof. intros H. unfold _read. rewrite H. by destruct o. Qed.

End Facts.

Section Emission.

Context {T : Type}.

Implicit Types (s : ResourceStream T) (c : Consumer T).

Lemma frame_refl s : _reading s = true -> wf s -> frame s s.
Proof. split; try done. exists []. by rewrite app_nil_r. Qed.

Lemma frame_trans s0 s1 s2 : frame s0 s1 -> frame s1 s2 -> frame s0 s2.
Proof.
  intros [? ? ? ? ? ? ? ? ? ? [d1 H1]] [? ? ? ? ? ? ? ? ? ? [d2 H2]].
  split; try congruence; auto.
  exists (d1 ++ d2). by rewrite H2, H1, app_assoc.
Qed.

Lemma frame_act s0 s a : frame s0 s -> frame s0 (act a s).
Proof.
  intros F. destruct a; simpl.
  - destruct F as [? ? ? ? ? ? ? ? ? ? [d H]]. split; simpl; auto.
    + by rewrite requested_snoc, app_nil_r.
    + by rewrite destroyed_snoc, app_nil_r.
    + by rewrite immediates_snoc, Nat.add_0_r.
    + by apply wf_end.
    + exists (d ++ [SuperEnd]). by rewrite H, app_assoc.
  - rewrite read_reading by apply F. exact F.
Qed.

Lemma frame_acts s0 s l :
  frame s0 s -> frame s0 (foldl (fun s a => act a s) s l).
Proof.
  revert s. induction l as [|a l IH]; simpl; [done|].
  intros s F. apply IH. by apply frame_act.
Qed.

Lemma pushed_act a s : _reading s = true -> pushed (trace (act a s)) = pushed (trace s).
Proof.
  intros R. destruct a; simpl.
  - by rewrite pushed_snoc, app_nil_r.
  - by rewrite read_reading.
Qed.

Lemma pushed_acts s l :
  _reading s = true -> wf s ->
  pushed (trace (foldl (fun s a => act a s) s l)) = pushed (trace s).
Proof.
  revert s. induction l as [|a l IH]; simpl; [done|].
  intros s R W.
  assert (F : frame s (act a s)) by (apply frame_act; by apply frame_refl).
  rewrite IH; [by apply pushed_act|apply F|apply F].
Qed.

Lemma frame_push c x s :
  _reading s = true -> wf s -> _ended s = false ->
  frame s (push c x s).2 /\
  pushed (trace (push c x s).2) = pushed (trace s) ++ [x].
Proof.
  intros R W E. unfold push. simpl.
  assert (F : frame s (log (Push x) s)).
  { split; simpl; auto.
    - by rewrite requested_snoc, app_nil_r.
    - by rewrite destroyed_snoc, app_nil_r.
    - by rewrite immediates_snoc, Nat.add_0_r.
    - by apply wf_log_push.
    - by exists [Push x]. }
  split.
  - by apply frame_acts.
  - rewrite pushed_acts; [|apply F|apply F]. simpl. by rewrite pushed_snoc.
Qed.

(** The loop pushes a prefix of the items, the whole of them unless the
    stream ended meanwhile, and changes nothing else. *)
Lemma pushAll_frame c rs m s :
  _reading s = true -> wf s ->
  frame s (pushAll c rs m s).2 /\
  exists j, (j <= length rs)%nat /\
    pushed (trace (pushAll c rs m s).2) = pushed (trace s) ++ take j rs /\
    (_ended (pushAll c rs m s).2 = false -> j = length rs).
Proof.
  revert m s. induction rs as [|x rs IH]; intros m s R W; cbn [pushAll].
  - split; [by apply frame_refl|]. exists 0%nat. by rewrite app_nil_r.
  - destruct (_ended s) eqn:E.
    + split; [by apply frame_refl|]. exists 0%nat. simpl.
      rewrite app_nil_r. repeat split; [lia|congruence].
    + destruct (frame_push c x s R W E) as [F P].
      destruct (push c x s) as [m1 s1] eqn:Hp. simpl in F, P |- *.
      destruct (IH m1 s1) as [F' (j & Hj & P' & Hall)]; [apply F|apply F|].
      split; [eapply frame_trans; eassumption|].
      exists (S j). simpl. rewrite P', P, <- app_assoc. simpl.
      repeat split; [lia|]. intros H. by rewrite Hall.
Qed.

Lemma pushAll_ended c rs m s : _ended s = true -> pushAll c rs m s = (m, s).
Proof. intros E. destruct rs; simpl; [done|]. by rewrite E. Qed.

End Emission.

Section Handler.

Context {T : Type}.

Implicit Types (s : ResourceStream T) (c : Consumer T) (r : Response T).

Lemma handler_err c r s e :
  err r = Some e -> handler c r s = log (Destroy e) s.
Proof. intros H. unfold handler. by rewrite H. Qed.

Lemma handler_ok c r s :
  err r = None -> _reading s = true -> wf s -> handled r s (handler c r s).
Proof.
  intros He R W. unfold handler. rewrite He.
  set (s1 := match _resultsToSend (set_nextQuery (nextQuery r) s) with
             | Fin n => _ | Infinity => _ end).
  assert (R1 : _reading s1 = true) by (subst s1; simpl; by destruct (_resultsToSend s)).
  assert (W1 : wf s1) by (subst s1; simpl; destruct (_resultsToSend s); exact W).
  assert (Q1 : _nextQuery s1 = nextQuery r) by (subst s1; simpl; by destruct (_resultsToSend s)).
  assert (B1 : _resultsToSend s1 = spend (_resultsToSend s) (results r))
    by (subst s1; simpl; destruct (_resultsToSend s) eqn:B; simpl; congruence).
  assert (N1 : _requestsMade s1 = _requestsMade s) by (subst s1; simpl; by destruct (_resultsToSend s)).
  assert (M1 : _maxApiCalls s1 = _maxApiCalls s) by (subst s1; simpl; by destruct (_resultsToSend s)).
  assert (E1 : _ended s1 = _ended s) by (subst s1; simpl; by destruct (_resultsToSend s)).
  assert (T1 : trace s1 = trace s) by (subst s1; simpl; by destruct (_resultsToSend s)).
  set (items := kept _ _) in *.
  destruct (pushAll_frame c items true s1 R1 W1) as [F (j & Hj & P & Hall)].
  clearbody s1. destruct (pushAll c items true s1) as [m s2]. simpl in F, P, Hall.
  destruct F as [Fm Fq Fn Fb Fr Fe Freq Fd Fi Fw [d Fx]]. rewrite T1 in Fx.
  cbn [_requestsMade _maxApiCalls set_requestsMade].
  rewrite Fq, Q1, Fb, B1, Fm, M1, Fn, N1.
  set (fin := negb (truthy (nextQuery r)) || _ || _).
  assert (Hfin : truthy (nextQuery r) = false \/
    lt1 (spend (_resultsToSend s) (results r)) = true \/
    geq (_requestsMade s + 1) (_maxApiCalls s) = true -> fin = true).
  { subst fin. intros [->|[->| ->]]; simpl; by rewrite ?orb_true_r. }
  clearbody fin. subst items. simpl in *.
  assert (Hfe : _ended s = true -> _ended s2 = true) by (rewrite <- E1; exact Fe).
  set (s3 := set_requestsMade (_requestsMade s + 1) s2).
  assert (W3 : wf s3) by exact Fw.
  destruct fin; simpl.
  - (* the handler ends the stream *)
    rewrite andb_false_r.
    split; simpl; rewrite ?pushed_snoc, ?requested_snoc, ?destroyed_snoc,
      ?immediates_snoc, ?app_nil_r, ?Nat.add_0_r, ?Fi, ?Freq, ?Fd, ?T1;
      try congruence; try lia.
    + exists j. rewrite <- ?T1. repeat split; [done|congruence|congruence].
    + exact (wf_end s3 W3).
    + exists (d ++ [SuperEnd]). by rewrite Fx, app_assoc.
  - destruct m, (_ended s2) eqn:E2; simpl;
      (split; simpl; rewrite ?pushed_snoc, ?requested_snoc, ?destroyed_snoc,
         ?immediates_snoc, ?app_nil_r, ?Nat.add_0_r, ?Fi, ?Freq, ?Fd, ?T1;
       try congruence; try lia; try done;
       try (exists j; rewrite <- ?T1; repeat split;
            first [done | congruence | by intros; apply Hall]);
       try (intros H; specialize (Hfin H); discriminate);
       try (intros H; specialize (Hfe H); congruence);
       try (by exists d);
       try (exists (d ++ [SetImmediate]); by rewrite Fx, app_assoc)).
    exact (wf_log_other s3 SetImmediate W3 eq_refl eq_refl).
Qed.

End Handler.

Section Soundness.

Context {T : Type}.

Implicit Types (cfg : Config T) (ev : Event T).

Lemma sound_start args : sound (T:=T) (start args).
Proof.
  split; simpl; [lia|done|apply wf_constructor|done|by left].
Qed.

Lemma pull_reading o cfg :
  _reading (engine cfg) = true ->
  pull o cfg =
  {| engine := engine cfg; inflight := inflight cfg; fired := fired cfg;
     uncaught := uncaught cfg |}.
Proof.
  intros R. unfold pull. rewrite read_reading, R by done. simpl.
  by rewrite app_nil_r.
Qed.

Lemma pull_idle o cfg :
  _reading (engine cfg) = false ->
  pull o cfg =
  {| engine := log (RequestFn (_nextQuery (engine cfg))) (set_reading true (engine cfg));
     inflight := if returns o then S (inflight cfg) else inflight cfg;
     fired := fired cfg;
     uncaught := uncaught cfg ++ match o with Returns => [] | Throws e => [e] end |}.
Proof.
  intros R. unfold pull. rewrite read_idle, R by done. by destruct o.
Qed.

Lemma sound_pull o cfg : sound cfg -> sound (pull o cfg).
Proof.
  intros S. destruct (_reading (engine cfg)) eqn:R.
  - rewrite pull_reading by done. destruct S. by split.
  - rewrite pull_idle by done.
    destruct S as [Si Sr Sw Sc Sd].
    assert (I0 : inflight cfg = 0%nat).
    { destruct (inflight cfg) as [|[|k]]; [done| |lia].
      specialize (Sr eq_refl). congruence. }
    unfold fetches in *. rewrite R in Sc.
    split; simpl; unfold fetches; simpl.
    + rewrite I0. destruct (returns o); lia.
    + done.
    + by apply (wf_log_other (set_reading true (engine cfg))).
    + rewrite requested_snoc, length_app. simpl. lia.
    + rewrite destroyed_snoc, app_nil_r.
      destruct Sd as [Sd|[_ Sd]]; [by left|congruence].
Qed.

Lemma sound_step ev cfg cfg' : sound cfg -> step ev cfg = Some cfg' -> sound cfg'.
Proof.
  intros S. destruct ev as [o|o|c r|]; simpl.
  - intros [= <-]. by apply sound_pull.
  - destruct (_ <? _)%nat; [|done]. intros [= <-].
    apply sound_pull. destruct S. by split.
  - destruct (inflight cfg) as [|k] eqn:I; [done|]. intros [= <-].
    destruct S as [Si Sr Sw Sc Sd].
    assert (K : k = 0%nat) by lia. subst k. specialize (Sr I).
    unfold fetches in *. rewrite Sr in Sc.
    destruct (err r) as [e|] eqn:He.
    + rewrite (handler_err c r _ e He).
      split; simpl; unfold fetches; simpl;
        [lia|done|by apply wf_log_other| |by right].
      by rewrite requested_snoc, app_nil_r, Sr.
    + destruct (handler_ok c r (engine cfg) He Sr Sw)
        as [Hr _ Hn _ _ _ Hq Hd _ _ _ _ Hw _].
      split; simpl; unfold fetches; simpl; [lia|done|done| |left].
      * rewrite Hq, Hr, Hn. lia.
      * rewrite Hd. destruct Sd as [Sd|[? _]]; [done|congruence].
  - intros [= <-]. destruct S as [Si Sr Sw Sc Sd].
    unfold fetches in *.
    split; simpl; unfold fetches; simpl; [done|done|by apply wf_end| |].
    + by rewrite requested_snoc, app_nil_r.
    + by rewrite destroyed_snoc, app_nil_r.
Qed.

Lemma sound_reachFrom guard cfg0 cfg :
  sound cfg0 -> reachFrom (T:=T) guard cfg0 cfg -> sound cfg.
Proof.
  intros S0. induction 1; [done|]. by eapply sound_step.
Qed.

Lemma sound_reach guard args cfg : reach (T:=T) guard args cfg -> sound cfg.
Proof. apply sound_reachFrom, sound_start. Qed.

Lemma reachFrom_weaken (g g' : Event T -> Config T -> bool) cfg0 cfg :
  (forall ev c, g ev c = true -> g' ev c = true) ->
  reachFrom g cfg0 cfg -> reachFrom g' cfg0 cfg.
Proof.
  intros Hg. induction 1; [constructor|]. eapply reach_step; eauto.
Qed.

Lemma reachFrom_trans (g : Event T -> Config T -> bool) cfg0 cfg1 cfg2 :
  reachFrom g cfg0 cfg1 -> reachFrom g cfg1 cfg2 -> reachFrom g cfg0 cfg2.
Proof.
  intros H1. induction 1; [done|]. eapply reach_step; eauto.
Qed.

Lemma run_reachFrom (g : Event T -> Config T -> bool) evs cfg0 cfg :
  run g evs cfg0 = Some cfg -> reachFrom g cfg0 cfg.
Proof.
  revert cfg0. induction evs as [|ev evs IH]; simpl; intros cfg0.
  - intros [= <-]. constructor.
  - destruct (g ev cfg0) eqn:G; [|done].
    destruct (step ev cfg0) as [cfg1|] eqn:S; [|done].
    intros H. eapply reachFrom_trans; [|by apply IH].
    eapply reach_step; [constructor|done..].
Qed.

End Soundness.
Section Steps.

Context {T : Type}.

Implicit Types (cfg : Config T) (ev : Event T) (tr : list (Effect T)).

Lemma beforeEnd_app_ended tr d : hasEnd tr = true -> beforeEnd (tr ++ d) = beforeEnd tr.
Proof.
  induction tr as [|a tr IH]; simpl; [done|].
  destruct (isSuperEnd a); simpl; [done|]. intros H. by rewrite IH.
Qed.

Lemma requested_beforeEnd_le tr :
  (length (requested (beforeEnd tr)) <= length (requested tr))%nat.
Proof.
  induction tr as [|a tr IH]; simpl; [done|].
  destruct a; simpl; lia.
Qed.

(** What every step does, whatever the event. *)
Lemma step_facts ev cfg cfg' :
  sound cfg -> step ev cfg = Some cfg' ->
  _maxApiCalls (engine cfg') = _maxApiCalls (engine cfg) /\
  (_ended (engine cfg) = true -> _ended (engine cfg') = true) /\
  (exists d, trace (engine cfg') = trace (engine cfg) ++ d) /\
  _requestsMade (engine cfg) <= _requestsMade (engine cfg') <= _requestsMade (engine cfg) + 1.
Proof.
  intros S.
  assert (P : forall o c, engine c = engine cfg ->
    let c' := pull o c in
    _maxApiCalls (engine c') = _maxApiCalls (engine cfg) /\
    (_ended (engine cfg) = true -> _ended (engine c') = true) /\
    (exists d, trace (engine c') = trace (engine cfg) ++ d) /\
    _requestsMade (engine cfg) <= _requestsMade (engine c') <= _requestsMade (engine cfg) + 1).
  { intros o c E. destruct (_reading (engine c)) eqn:R; simpl.
    - rewrite pull_reading by done. simpl. rewrite E.
      repeat split; try done; try lia. exists []. by rewrite app_nil_r.
    - rewrite pull_idle by done. simpl. rewrite E.
      repeat split; try done; try lia. by eexists. }
  destruct ev as [o|o|c r|]; simpl.
  - intros [= <-]. by apply P.
  - destruct (_ <? _)%nat; [|done]. intros [= <-]. by apply P.
  - destruct (inflight cfg) as [|k] eqn:I; [done|]. intros [= <-]. simpl.
    destruct S as [Si Sr Sw _ _]. assert (K : k = 0%nat) by lia. subst k.
    specialize (Sr I).
    destruct (err r) as [e|] eqn:He.
    + rewrite (handler_err c r _ e He). simpl.
      repeat split; try done; try lia. by eexists.
    + destruct (handler_ok c r (engine cfg) He Sr Sw)
        as [_ _ Hn Hm _ _ _ _ _ _ Hend _ _ Hx].
      repeat split; try done; lia.
  - intros [= <-]. simpl. repeat split; try done; try lia. by eexists.
Qed.

(** A step that does not execute [_read] makes no fetch call. *)
Lemma step_silent ev cfg cfg' :
  sound cfg -> reads ev = false -> step ev cfg = Some cfg' -> fetches cfg' = fetches cfg.
Proof.
  intros S. destruct ev as [o|o|c r|]; simpl; try done; intros _.
  - destruct (inflight cfg) as [|k] eqn:I; [done|]. intros [= <-].
    unfold fetches. simpl.
    destruct S as [Si Sr Sw _ _]. assert (K : k = 0%nat) by lia. subst k.
    specialize (Sr I).
    destruct (err r) as [e|] eqn:He.
    + rewrite (handler_err c r _ e He). simpl.
      by rewrite requested_snoc, app_nil_r.
    + destruct (handler_ok c r (engine cfg) He Sr Sw)
        as [_ _ _ _ _ _ Hq _ _ _ _ _ _ _].
      by rewrite Hq.
  - intros [= <-]. unfold fetches. simpl. by rewrite requested_snoc, app_nil_r.
Qed.

(** Once the stream has ended with no immediate left to run, no fetch call
    is made any more, as long as the stream layer does not call [_read]. *)
Lemma ended_no_fetch cfg cfg' :
  sound cfg -> _ended (engine cfg) = true ->
  fired cfg = immediates (trace (engine cfg)) ->
  reachFrom hostBeforeEnd cfg cfg' ->
  _ended (engine cfg') = true /\
  fired cfg' = immediates (trace (engine cfg')) /\
  fetches cfg' = fetches cfg.
Proof.
  intros S E I. induction 1 as [|c1 ev c2 H IH G St]; [done|].
  destruct IH as (E1 & I1 & F1).
  assert (S1 : sound c1).
  { eapply sound_reachFrom; [exact S|]. eapply reachFrom_weaken; [|exact H]. done. }
  destruct (step_facts ev c1 c2 S1 St) as (_ & Fe & _ & _).
  split; [by apply Fe|].
  destruct ev as [o|o|c r|].
  - simpl in G. by rewrite E1 in G.
  - simpl in St. by rewrite I1, Nat.ltb_irrefl in St.
  - rewrite (step_silent (Callback c r) c1 c2 S1 eq_refl St). split; [|done].
    simpl in St. destruct (inflight c1) as [|k] eqn:In; [done|].
    injection St as <-. simpl in *.
    destruct S1 as [Si Sr Sw _ _]. assert (K : k = 0%nat) by lia. subst k.
    specialize (Sr In).
    destruct (err r) as [e|] eqn:He.
    + rewrite (handler_err c r _ e He). simpl.
      by rewrite immediates_snoc, Nat.add_0_r.
    + destruct (handler_ok c r (engine c1) He Sr Sw)
        as [_ _ _ _ _ _ _ _ _ Hidle Hend _ _ _].
      rewrite Hidle; [done|]. by apply Hend.
  - rewrite (step_silent ConsumerEnd c1 c2 S1 eq_refl St). split; [|done].
    injection St as <-. simpl. by rewrite immediates_snoc, Nat.add_0_r.
Qed.

(** *** The results budget *)





End Steps.
(** ** The caps *)

Section Caps.

Context {T : Type}.

Implicit Types (cfg : Config T) (ev : Event T) (tr : list (Effect T)).

(** A callback is only possible for a pending fetch, while [_reading]. *)
Lemma callback_inv c r cfg cfg' :
  sound cfg -> step (Callback c r) cfg = Some cfg' ->
  _reading (engine cfg) = true /\ inflight cfg = 1%nat /\
  cfg' = {| engine := handler c r (engine cfg); inflight := 0;
            fired := fired cfg; uncaught := uncaught cfg |}.
Proof.
  intros [Si Sr _ _ _]. simpl.
  destruct (inflight cfg) as [|k] eqn:I; [done|]. intros [= <-].
  assert (K : k = 0%nat) by lia. subst k. auto.
Qed.


End Caps.



Section CallCap.

Context {T : Type}.

Implicit Types (cfg : Config T) (ev : Event T) (tr : list (Effect T)).

Lemma calls_start args :
  1 <= maxApiCalls args -> withinCalls (T:=T) (maxApiCalls args) (start args).
Proof.
  intros Hn. unfold withinCalls. simpl. unfold orInfinity.
  destruct (Z.eqb_spec (maxApiCalls args) (-1)); [lia|]. repeat split; lia.
Qed.

(** While the stream has not ended, one more step leaves the number of
    fetch calls within the cap. *)
Lemma calls_next n ev cfg cfg' :
  sound cfg -> withinCalls n cfg -> _ended (engine cfg) = false ->
  step ev cfg = Some cfg' -> Z.of_nat (fetches cfg') <= n.
Proof.
  intros S (Hm & Hlt & _) E St. specialize (Hlt E).
  pose proof (sound_step _ _ _ S St) as S'.
  pose proof (sd_count _ S') as C'. pose proof (sd_count _ S) as C.
  destruct ev as [o|o|c r|]; simpl in St.
  - injection St as <-. destruct (_reading (engine cfg)) eqn:R.
    + rewrite pull_reading in * by done. unfold fetches in *. simpl in *. lia.
    + rewrite pull_idle in * by done. unfold fetches in *. simpl in *. lia.
  - destruct (_ <? _)%nat; [|done]. injection St as <-.
    destruct (_reading (engine cfg)) eqn:R.
    + rewrite pull_reading in * by done. unfold fetches in *. simpl in *. lia.
    + rewrite pull_idle in * by done. unfold fetches in *. simpl in *. lia.
  - rewrite <- (step_silent (Callback c r) cfg cfg' S eq_refl St) in C.
    destruct (_reading (engine cfg)); lia.
  - rewrite <- (step_silent ConsumerEnd cfg cfg' S eq_refl St) in C.
    destruct (_reading (engine cfg)); lia.
Qed.

Lemma calls_step n ev cfg cfg' :
  sound cfg -> withinCalls n cfg -> step ev cfg = Some cfg' -> withinCalls n cfg'.
Proof.
  intros S W St. pose proof W as (Hm & Hlt & Hb).
  destruct (step_facts ev cfg cfg' S St) as (Fm & Fe & [d Fx] & Fn).
  split; [congruence|]. split.
  - (* not ended afterwards: the counter is below the cap *)
    intros E'. destruct (_ended (engine cfg)) eqn:E; [by rewrite Fe in E'|].
    specialize (Hlt eq_refl).
    destruct ev as [o|o|c r|]; simpl in St.
    + injection St as <-. destruct (_reading (engine cfg)) eqn:R.
      * by rewrite pull_reading by done.
      * by rewrite pull_idle by done.
    + destruct (_ <? _)%nat; [|done]. injection St as <-.
      destruct (_reading (engine cfg)) eqn:R.
      * by rewrite pull_reading by done.
      * by rewrite pull_idle by done.
    + destruct (callback_inv c r cfg cfg' S St) as (Rd & _ & ->). simpl in *.
      destruct (err r) as [e|] eqn:He.
      * by rewrite (handler_err c r _ e He).
      * destruct (handler_ok c r (engine cfg) He Rd (sd_wf _ S))
          as [_ _ Hn _ _ _ _ _ _ _ _ Hfin _ _].
        rewrite Hn. destruct (Z.leb_spec n (_requestsMade (engine cfg) + 1)) as [L|L];
          [|lia].
        rewrite Hfin in E'; [done|]. right; right. rewrite Hm. simpl.
        by apply Z.leb_le.
    + injection St as <-. done.
  - (* the fetch calls before the first end *)
    destruct (_ended (engine cfg)) eqn:E.
    + rewrite Fx, beforeEnd_app_ended; [done|].
      destruct (sd_wf _ S) as [We _]. congruence.
    + pose proof (calls_next n ev cfg cfg' S W E St) as L.
      pose proof (requested_beforeEnd_le (trace (engine cfg'))).
      unfold fetches in L. lia.
Qed.

Lemma calls_reach args cfg :
  1 <= maxApiCalls args -> reach anytime args cfg -> withinCalls (maxApiCalls args) cfg.
Proof.
  intros Hn. induction 1 as [|c1 ev c2 H IH G St]; [by apply calls_start|].
  eapply calls_step; [|done..]. by eapply sound_reach.
Qed.

(** When [_read] is never executed after the end, the cap bounds all fetch
    calls. *)
Lemma calls_polite args cfg :
  1 <= maxApiCalls args -> reach notAfterEnd args cfg ->
  Z.of_nat (fetches cfg) <= maxApiCalls args.
Proof.
  intros Hn. induction 1 as [|c1 ev c2 H IH G St]; [unfold fetches; simpl; lia|].
  assert (A : reach anytime args c1) by (eapply reachFrom_weaken; [|exact H]; done).
  pose proof (sound_reach _ _ _ A) as S.
  pose proof (calls_reach args c1 Hn A) as W.
  destruct (_ended (engine c1)) eqn:E.
  - unfold notAfterEnd in G. rewrite E, andb_true_r in G.
    apply negb_true_iff in G. by rewrite (step_silent ev c1 c2 S G St).
  - by eapply calls_next.
Qed.

(** C2, as the code has it: with a call cap [maxApiCalls = n >= 1] the
    fetch operation is called at most [n] times before the stream ends
    (counting the calls logged before the first [end]); [_requestsMade]
    grows by exactly one with every successful fetch, and the handler ends
    the stream as soon as it reaches [n].  [_requestsMade <= n], and at most
    [n] fetch calls in all, hold in the configurations reached without
    [_read] being executed after the end; [_read] itself does not look at
    [_ended]. *)
Theorem maxApiCalls_bounds_fetches (args : ParsedArguments) cfg :
  1 <= maxApiCalls args ->
  reach anytime args cfg ->
  Z.of_nat (length (requested (beforeEnd (trace (engine cfg))))) <= maxApiCalls args /\
  (_ended (engine cfg) = false -> _requestsMade (engine cfg) < maxApiCalls args) /\
  (forall c r cfg', err r = None -> step (Callback c r) cfg = Some cfg' ->
     _requestsMade (engine cfg') = _requestsMade (engine cfg) + 1 /\
     (maxApiCalls args <= _requestsMade (engine cfg') -> _ended (engine cfg') = true)) /\
  (reach notAfterEnd args cfg ->
     _requestsMade (engine cfg) <= maxApiCalls args /\
     Z.of_nat (fetches cfg) <= maxApiCalls args).
Proof.
  intros Hn R. pose proof (sound_reach _ _ _ R) as S.
  destruct (calls_reach args cfg Hn R) as (Hm & Hlt & Hb).
  repeat split; try done.
  - destruct (callback_inv c r cfg cfg' S H0) as (Rd & _ & ->). simpl.
    by destruct (handler_ok c r (engine cfg) H Rd (sd_wf _ S)).
  - destruct (callback_inv c r cfg cfg' S H0) as (Rd & _ & ->). simpl.
    destruct (handler_ok c r (engine cfg) H Rd (sd_wf _ S))
      as [_ _ Hq _ _ _ _ _ _ _ _ Hfin _ _].
    intros L. apply Hfin. right; right. rewrite Hm. simpl. apply Z.leb_le. lia.
  - pose proof (calls_polite args cfg Hn H) as L.
    pose proof (sd_count _ S) as C. destruct (_reading (engine cfg)); lia.
  - by apply calls_polite.
Qed.

End CallCap.

Lemma maxApiCalls_bounds_fetches_witness :
  let args := twoCalls in
  let cfg : Config string := pull Returns (start twoCalls) in
  1 <= maxApiCalls args /\
  reach anytime args cfg /\
  Z.of_nat (length (requested (beforeEnd (trace (engine cfg))))) <= maxApiCalls args /\
  (_ended (engine cfg) = false -> _requestsMade (engine cfg) < maxApiCalls args) /\
  (forall c r cfg', err r = None -> step (Callback c r) cfg = Some cfg' ->
     _requestsMade (engine cfg') = _requestsMade (engine cfg) + 1 /\
     (maxApiCalls args <= _requestsMade (engine cfg') -> _ended (engine cfg') = true)) /\
  (reach notAfterEnd args cfg ->
     _requestsMade (engine cfg) <= maxApiCalls args /\
     Z.of_nat (fetches cfg) <= maxApiCalls args).
Proof.
  intros args cfg.
  assert (H1 : 1 <= maxApiCalls args) by (simpl; lia).
  assert (R : reach anytime args cfg).
  { apply (reach_step _ _ (start args) (HostRead Returns));
      [apply reach_here|reflexivity|reflexivity]. }
  split; [exact H1|]. split; [exact R|].
  exact (maxApiCalls_bounds_fetches args cfg H1 R).
Defined.

(** C2, as stated, fails: with [maxApiCalls = 2], an immediate queued after
    the first page runs after the second page has ended the stream, a third
    fetch is made, and [_requestsMade] becomes 3.  The stream layer never
    calls [_read] after the end here. *)
Lemma requestsMade_exceeds_maxApiCalls :
  maxApiCalls twoCalls = 2 /\
  (fun cfg => (_ended (engine cfg), fetches cfg)) <$>
    run hostBeforeEnd (staleImmediate eager []) (start twoCalls) = Some (true, 3%nat) /\
  (fun cfg => _requestsMade (engine cfg)) <$>
    run hostBeforeEnd (staleImmediate eager [] ++ [Callback eager (page [] (Some cursor))])
      (start twoCalls) = Some 3 /\
  ~ (forall cfg : Config string, reach anytime twoCalls cfg ->
       _requestsMade (engine cfg) <= maxApiCalls twoCalls).
Proof.
  split; [reflexivity|]. split; [vm_compute; reflexivity|].
  split; [vm_compute; reflexivity|].
  intros H.
  destruct (run hostBeforeEnd
    (staleImmediate eager [] ++ [Callback eager (page [] (Some cursor))])
    (start twoCalls)) as [cfg|] eqn:Hrun; [|vm_compute in Hrun; discriminate].
  assert (N : _requestsMade (engine cfg) = 3).
  { vm_compute in Hrun. injection Hrun as <-. reflexivity. }
  apply run_reachFrom in Hrun.
  specialize (H cfg (reachFrom_weaken _ anytime _ _ (fun _ _ _ => eq_refl) Hrun)).
  rewrite N in H. simpl in H. lia.
Qed.

(** ** Exhaustion *)

Section Exhaustion.

Context {T : Type}.

Implicit Types (cfg : Config T) (s : ResourceStream T) (c : Consumer T).

Lemma pushAll_quiet c rs m s :
  quiet c -> _ended s = false ->
  pushed (trace (pushAll c rs m s).2) = pushed (trace s) ++ rs.
Proof.
  intros Q. revert m s. induction rs as [|x rs IH]; intros m s E; cbn [pushAll].
  - by rewrite app_nil_r.
  - rewrite E. unfold push. rewrite Q. cbn [foldl].
    rewrite IH by done. simpl. by rewrite pushed_snoc, <- app_assoc.
Qed.

Lemma handler_quiet c r s :
  err r = None -> quiet c -> _ended s = false ->
  pushed (trace (handler c r s)) =
  pushed (trace s) ++ kept (_resultsToSend s) (results r).
Proof.
  intros He Q E. unfold handler. rewrite He.
  set (s1 := match _resultsToSend (set_nextQuery (nextQuery r) s) with
             | Fin n => _ | Infinity => _ end).
  assert (E1 : _ended s1 = false) by (subst s1; simpl; by destruct (_resultsToSend s)).
  assert (T1 : trace s1 = trace s) by (subst s1; simpl; by destruct (_resultsToSend s)).
  pose proof (pushAll_quiet c (kept (_resultsToSend s) (results r)) true s1 Q E1) as P.
  simpl. clearbody s1.
  destruct (pushAll c (kept (_resultsToSend s) (results r)) true s1) as [m s2].
  simpl in P. rewrite T1 in P.
  destruct (negb _ || _ || _); simpl.
  - rewrite andb_false_r. simpl. by rewrite pushed_snoc, app_nil_r.
  - destruct (m && _); simpl; by rewrite ?pushed_snoc, ?app_nil_r.
Qed.

(** C3, as the code has it: a successful fetch whose [nextQuery] is absent
    ([null] or [undefined]) ends the stream once its items, capped by the
    budget, have been pushed (all of them when the listeners do not end the
    stream meanwhile), and the handler queues no further pull.  No fetch
    call follows, provided no immediate queued earlier is still to run and
    the stream layer does not call [_read] after the end.  A [nextQuery]
    that is present counts as a next page even when it is an empty
    mapping. *)
Theorem absent_cursor_ends (args : ParsedArguments) cfg c (r : Response T) cfg' :
  reach anytime args cfg ->
  err r = None ->
  nextQuery r = None ->
  step (Callback c r) cfg = Some cfg' ->
  _ended (engine cfg') = true /\
  (exists j, pushed (trace (engine cfg')) =
     pushed (trace (engine cfg)) ++
     take j (kept (_resultsToSend (engine cfg)) (results r))) /\
  (_ended (engine cfg) = false -> quiet c ->
   pushed (trace (engine cfg')) =
     pushed (trace (engine cfg)) ++ kept (_resultsToSend (engine cfg)) (results r)) /\
  immediates (trace (engine cfg')) = immediates (trace (engine cfg)) /\
  inflight cfg' = 0%nat /\
  (fired cfg = immediates (trace (engine cfg)) ->
   forall cfg'', reachFrom hostBeforeEnd cfg' cfg'' -> fetches cfg'' = fetches cfg).
Proof.
  intros R He Hq St. pose proof (sound_reach _ _ _ R) as S.
  pose proof (sound_step _ _ _ S St) as S'.
  pose proof (step_silent (Callback c r) _ _ S eq_refl St) as F.
  destruct (callback_inv c r cfg cfg' S St) as (Rd & _ & ->). simpl in *.
  destruct (handler_ok c r (engine cfg) He Rd (sd_wf _ S))
    as [_ _ _ _ _ (j & _ & Hp & _) _ _ _ Hidle _ Hfin _ _].
  assert (E' : _ended (handler c r (engine cfg)) = true).
  { apply Hfin. left. by rewrite Hq. }
  repeat split; try done.
  - by exists j.
  - intros E Q. by apply handler_quiet.
  - by apply Hidle.
  - intros I cfg'' Rs. rewrite <- F.
    apply (ended_no_fetch _ cfg'' S'); [done| |done]. simpl.
    rewrite Hidle; done.
Qed.

End Exhaustion.

Lemma absent_cursor_ends_witness :
  let args := unbounded in
  let cfg : Config string := pull Returns (start unbounded) in
  let c := eager in
  let r := page ["a"; "b"; "c"] None in
  let cfg' := {| engine := handler c r (engine cfg); inflight := 0;
                 fired := 0; uncaught := [] |} in
  reach anytime args cfg /\
  err r = None /\
  nextQuery r = None /\
  step (Callback c r) cfg = Some cfg' /\
  _ended (engine cfg') = true /\
  (exists j, pushed (trace (engine cfg')) =
     pushed (trace (engine cfg)) ++
     take j (kept (_resultsToSend (engine cfg)) (results r))) /\
  (_ended (engine cfg) = false -> quiet c ->
   pushed (trace (engine cfg')) =
     pushed (trace (engine cfg)) ++ kept (_resultsToSend (engine cfg)) (results r)) /\
  immediates (trace (engine cfg')) = immediates (trace (engine cfg)) /\
  inflight cfg' = 0%nat /\
  (fired cfg = immediates (trace (engine cfg)) ->
   forall cfg'', reachFrom hostBeforeEnd cfg' cfg'' -> fetches cfg'' = fetches cfg).
Proof.
  intros args cfg c r cfg'.
  assert (R : reach anytime args cfg).
  { apply (reach_step _ _ (start args) (HostRead Returns));
      [apply reach_here|reflexivity|reflexivity]. }
  assert (St : step (Callback c r) cfg = Some cfg') by reflexivity.
  split; [exact R|]. split; [reflexivity|]. split; [reflexivity|].
  split; [exact St|].
  exact (absent_cursor_ends args cfg c r cfg' R eq_refl eq_refl St).
Defined.

(** C3, as stated, fails for a cursor that is present but empty: after a
    page whose [nextQuery] is the empty mapping the stream has not ended, a
    pull is queued, and it makes a second fetch with that cursor. *)
Lemma empty_cursor_goes_on :
  let r := page ["a"] (Some ∅) in
  nextQuery r = Some ∅ /\
  (fun cfg => (_ended (engine cfg), immediates (trace (engine cfg)), fetches cfg)) <$>
    run anytime [HostRead Returns; Callback eager r] (start unbounded)
    = Some (false, 1%nat, 1%nat) /\
  (fun cfg => (_ended (engine cfg), requested (trace (engine cfg)))) <$>
    run anytime [HostRead Returns; Callback eager r; Immediate Returns] (start unbounded)
    = Some (false, [Some ∅; Some ∅]).
Proof. repeat split; vm_compute; reflexivity. Qed.

(** ** One fetch at a time *)

Section Guard.

Context {T : Type}.

Implicit Types (cfg : Config T) (s : ResourceStream T) (c : Consumer T).

(** C4: at most one fetch is pending at any time, and while one is pending
    [_reading] is set.  While [_reading] is set, [_read] returns at once: it
    changes nothing and calls nothing, whether the stream layer or a queued
    immediate runs it; the handler, with whatever the listeners do during
    its pushes, makes no fetch call either.  So a fetch starts only after
    the handler of the previous one has run. *)
Theorem one_fetch_at_a_time (args : ParsedArguments) cfg :
  reach anytime args cfg ->
  (inflight cfg <= 1)%nat /\
  (inflight cfg = 1%nat -> _reading (engine cfg) = true) /\
  (_reading (engine cfg) = true -> forall o,
     _read o (engine cfg) = (engine cfg, None) /\
     step (HostRead o) cfg = Some cfg /\
     forall cfg', step (Immediate o) cfg = Some cfg' ->
       engine cfg' = engine cfg /\ inflight cfg' = inflight cfg) /\
  (forall c r cfg', step (Callback c r) cfg = Some cfg' ->
     fetches cfg' = fetches cfg /\ inflight cfg' = 0%nat).
Proof.
  intros R. pose proof (sound_reach _ _ _ R) as S.
  split; [apply S|]. split; [apply S|]. split.
  - intros Rd o. split; [by apply read_reading|]. split.
    + simpl. rewrite pull_reading by done. by destruct cfg.
    + intros cfg'. simpl. destruct (_ <? _)%nat; [|done].
      intros [= <-]. by rewrite pull_reading.
  - intros c r cfg' St. split.
    + by apply (step_silent (Callback c r)).
    + by destruct (callback_inv c r cfg cfg' S St) as (_ & _ & ->).
Qed.

(** After a failed fetch, or a fetch operation that threw, [_reading] stays
    set with nothing pending: from then on only [end] shows in the log. *)
Lemma stuck_forever cfg cfg' :
  inflight cfg = 0%nat -> _reading (engine cfg) = true ->
  reachFrom anytime cfg cfg' ->
  inflight cfg' = 0%nat /\ _reading (engine cfg') = true /\
  pushed (trace (engine cfg')) = pushed (trace (engine cfg)) /\
  destroyed (trace (engine cfg')) = destroyed (trace (engine cfg)) /\
  requested (trace (engine cfg')) = requested (trace (engine cfg)) /\
  immediates (trace (engine cfg')) = immediates (trace (engine cfg)).
Proof.
  intros I Rd. induction 1 as [|c1 ev c2 H IH G St]; [done|].
  destruct IH as (I1 & R1 & P1 & D1 & Q1 & M1).
  destruct ev as [o|o|c r|]; simpl in St.
  - injection St as <-. by rewrite pull_reading.
  - destruct (_ <? _)%nat; [|done]. injection St as <-. by rewrite pull_reading.
  - by rewrite I1 in St.
  - injection St as <-. simpl.
    by rewrite pushed_snoc, destroyed_snoc, requested_snoc, immediates_snoc,
      !app_nil_r, Nat.add_0_r.
Qed.

(** C6: when the handler is called with an error, the stream is destroyed
    with exactly that error and nothing else happens: the fields are as
    before, no item of that fetch is pushed.  The stream had not been
    destroyed before, and whatever follows, it is destroyed that once, no
    item is pushed and no fetch is made any more. *)
Theorem fetch_error_destroys (args : ParsedArguments) cfg c (r : Response T) e cfg' :
  reach anytime args cfg ->
  err r = Some e ->
  step (Callback c r) cfg = Some cfg' ->
  engine cfg' = log (Destroy e) (engine cfg) /\
  destroyed (trace (engine cfg)) = [] /\
  forall cfg'', reachFrom anytime cfg' cfg'' ->
    destroyed (trace (engine cfg'')) = [e] /\
    pushed (trace (engine cfg'')) = pushed (trace (engine cfg)) /\
    fetches cfg'' = fetches cfg /\
    inflight cfg'' = 0%nat.
Proof.
  intros R He St. pose proof (sound_reach _ _ _ R) as S.
  destruct (callback_inv c r cfg cfg' S St) as (Rd & I & ->). simpl.
  rewrite (handler_err c r _ e He).
  assert (D : destroyed (trace (engine cfg)) = []).
  { destruct (sd_destroyed _ S) as [D|[I0 _]]; [done|congruence]. }
  repeat split; try done.
  all: eapply stuck_forever in H as (I' & _ & P & D' & Q & _);
    [|reflexivity|exact Rd]; simpl in *.
  - by rewrite D', destroyed_snoc, D.
  - by rewrite P, pushed_snoc, app_nil_r.
  - unfold fetches. by rewrite Q, requested_snoc, app_nil_r.
  - done.
Qed.

End Guard.

Lemma one_fetch_at_a_time_witness :
  let args := unbounded in
  let cfg : Config string := pull Returns (start unbounded) in
  reach anytime args cfg /\
  (inflight cfg <= 1)%nat /\
  (inflight cfg = 1%nat -> _reading (engine cfg) = true) /\
  (_reading (engine cfg) = true -> forall o,
     _read o (engine cfg) = (engine cfg, None) /\
     step (HostRead o) cfg = Some cfg /\
     forall cfg', step (Immediate o) cfg = Some cfg' ->
       engine cfg' = engine cfg /\ inflight cfg' = inflight cfg) /\
  (forall c r cfg', step (Callback c r) cfg = Some cfg' ->
     fetches cfg' = fetches cfg /\ inflight cfg' = 0%nat).
Proof.
  intros args cfg.
  assert (R : reach anytime args cfg).
  { apply (reach_step _ _ (start args) (HostRead Returns));
      [apply reach_here|reflexivity|reflexivity]. }
  split; [exact R|].
  exact (one_fetch_at_a_time args cfg R).
Defined.

Lemma fetch_error_destroys_witness :
  let args := unbounded in
  let cfg : Config string := pull Returns (start unbounded) in
  let c := eager in
  let r := failure "err" ["a"; "b"] in
  let cfg' := {| engine := handler c r (engine cfg); inflight := 0;
                 fired := 0; uncaught := [] |} in
  reach anytime args cfg /\
  err r = Some "err" /\
  step (Callback c r) cfg = Some cfg' /\
  engine cfg' = log (Destroy "err") (engine cfg) /\
  destroyed (trace (engine cfg)) = [] /\
  forall cfg'', reachFrom anytime cfg' cfg'' ->
    destroyed (trace (engine cfg'')) = ["err"] /\
    pushed (trace (engine cfg'')) = pushed (trace (engine cfg)) /\
    fetches cfg'' = fetches cfg /\
    inflight cfg'' = 0%nat.
Proof.
  intros args cfg c r cfg'.
  assert (R : reach anytime args cfg).
  { apply (reach_step _ _ (start args) (HostRead Returns));
      [apply reach_here|reflexivity|reflexivity]. }
  assert (St : step (Callback c r) cfg = Some cfg') by reflexivity.
  split; [exact R|]. split; [reflexivity|]. split; [exact St|].
  exact (fetch_error_destroys args cfg c r "err" cfg' R eq_refl St).
Defined.

(** ** Early end, empty pages, and what the handler does not do *)

Section Ending.

Context {T : Type}.

Implicit Types (cfg : Config T) (s : ResourceStream T) (c : Consumer T).

(** C5, as the code has it: during the emission of a page the items pushed
    are a prefix of the retained ones, cut short only when the stream has
    ended; nowhere in the log does a [push] follow an [end], so the item
    whose listener ended the stream is the last one pushed.  When the
    stream has ended as the handler finishes, the handler queues no pull
    and makes no fetch call, and none follows, provided no immediate queued
    earlier is still to run and the stream layer does not call [_read]
    after the end; [_read] itself does not look at [_ended]. *)
Theorem end_stops_emission (args : ParsedArguments) cfg c (r : Response T) cfg' :
  reach anytime args cfg ->
  err r = None ->
  step (Callback c r) cfg = Some cfg' ->
  (exists j,
     pushed (trace (engine cfg')) =
       pushed (trace (engine cfg)) ++
       take j (kept (_resultsToSend (engine cfg)) (results r)) /\
     (_ended (engine cfg') = false ->
      j = length (kept (_resultsToSend (engine cfg)) (results r)))) /\
  (forall tr1 tr2 x, trace (engine cfg') = tr1 ++ SuperEnd :: tr2 -> Push x ∉ tr2) /\
  (_ended (engine cfg') = true ->
   immediates (trace (engine cfg')) = immediates (trace (engine cfg))) /\
  fetches cfg' = fetches cfg /\
  (_ended (engine cfg') = true ->
   fired cfg = immediates (trace (engine cfg)) ->
   forall cfg'', reachFrom hostBeforeEnd cfg' cfg'' -> fetches cfg'' = fetches cfg).
Proof.
  intros R He St. pose proof (sound_reach _ _ _ R) as S.
  pose proof (sound_step _ _ _ S St) as S'.
  pose proof (step_silent (Callback c r) _ _ S eq_refl St) as F.
  destruct (callback_inv c r cfg cfg' S St) as (Rd & _ & ->). simpl in *.
  destruct (handler_ok c r (engine cfg) He Rd (sd_wf _ S))
    as [_ _ _ _ _ (j & _ & Hp & Hall) _ _ _ Hidle _ _ [_ Hw] _].
  repeat split; try done.
  - by exists j.
  - intros tr1 tr2 x. by apply noPushAfterEnd_split.
  - intros E I cfg'' Rs. rewrite <- F.
    apply (ended_no_fetch _ cfg'' S'); [done| |done]. simpl.
    rewrite Hidle; done.
Qed.

(** C9, as the code has it: [_read] does not look at [_ended].  After the
    end it is a no-op only while [_reading] is still set; with no fetch
    being handled it sets [_reading] and calls the fetch operation with the
    stored cursor, and leaves everything else as it was. *)
Theorem read_after_end s (o : Outcome) :
  _ended s = true ->
  (_reading s = true -> _read o s = (s, None)) /\
  (_reading s = false ->
   _read o s =
   (log (RequestFn (_nextQuery s)) (set_reading true s),
    match o with Returns => None | Throws e => Some e end)).
Proof.
  intros _. split; [apply read_reading|apply read_idle].
Qed.

(** C10: a successful fetch that retains no item, on a stream that has not
    ended, with a next query, budget left and calls left, queues the next
    pull: the loop leaves [more] at [true], so the handler logs
    [setImmediate], and only that, without ending the stream. *)
Theorem empty_page_keeps_pulling c (r : Response T) s :
  err r = None ->
  kept (_resultsToSend s) (results r) = [] ->
  _ended s = false ->
  truthy (nextQuery r) = true ->
  lt1 (_resultsToSend s) = false ->
  geq (_requestsMade s + 1) (_maxApiCalls s) = false ->
  pushAll c [] true s = (true, s) /\
  trace (handler c r s) = trace s ++ [SetImmediate] /\
  _ended (handler c r s) = false /\
  _reading (handler c r s) = false /\
  _nextQuery (handler c r s) = nextQuery r /\
  _requestsMade (handler c r s) = _requestsMade s + 1.
Proof.
  intros He Hk E Hq Hb Hc. split; [done|].
  unfold handler. rewrite He. simpl. rewrite Hk. simpl.
  destruct (_resultsToSend s) as [n|] eqn:B; simpl.
  - simpl in Hb. change (Z.of_nat 0) with 0. rewrite Z.sub_0_r, Hq, Hb, Hc.
    simpl. by rewrite E.
  - rewrite Hq, Hc, B. simpl. by rewrite E.
Qed.

(** C8 fails on the code: the handler takes [(err, results, nextQuery)]
    only; whatever else the fetch operation passes is dropped, and the
    engine has no field to keep it. *)
Theorem handler_drops_rest c (r : Response T) (others : list JsVal) s :
  handler c {| err := err r; results := results r; nextQuery := nextQuery r;
               rest := others |} s
  = handler c r s.
Proof. reflexivity. Qed.

End Ending.

Lemma end_stops_emission_witness :
  let args := unbounded in
  let cfg : Config string := pull Returns (start unbounded) in
  let c := stopAt "b" in
  let r := page ["a"; "b"; "c"] (Some cursor) in
  let cfg' := {| engine := handler c r (engine cfg); inflight := 0;
                 fired := 0; uncaught := [] |} in
  reach anytime args cfg /\
  err r = None /\
  step (Callback c r) cfg = Some cfg' /\
  (exists j,
     pushed (trace (engine cfg')) =
       pushed (trace (engine cfg)) ++
       take j (kept (_resultsToSend (engine cfg)) (results r)) /\
     (_ended (engine cfg') = false ->
      j = length (kept (_resultsToSend (engine cfg)) (results r)))) /\
  (forall tr1 tr2 x, trace (engine cfg') = tr1 ++ SuperEnd :: tr2 -> Push x ∉ tr2) /\
  (_ended (engine cfg') = true ->
   immediates (trace (engine cfg')) = immediates (trace (engine cfg))) /\
  fetches cfg' = fetches cfg /\
  (_ended (engine cfg') = true ->
   fired cfg = immediates (trace (engine cfg)) ->
   forall cfg'', reachFrom hostBeforeEnd cfg' cfg'' -> fetches cfg'' = fetches cfg).
Proof.
  intros args cfg c r cfg'.
  assert (R : reach anytime args cfg).
  { apply (reach_step _ _ (start args) (HostRead Returns));
      [apply reach_here|reflexivity|reflexivity]. }
  assert (St : step (Callback c r) cfg = Some cfg') by reflexivity.
  split; [exact R|]. split; [reflexivity|]. split; [exact St|].
  exact (end_stops_emission args cfg c r cfg' R eq_refl St).
Defined.

(** C5, as stated, fails in its last part: the consumer ends the stream
    while the second page is emitted ("c" is dropped), and the immediate
    queued after the first page still runs [_read], which makes a third
    fetch.  The stream layer never calls [_read] after the end here. *)
Lemma fetch_after_consumer_end :
  let evs := staleImmediate (stopAt "b") ["a"; "b"; "c"] in
  (fun cfg => (_ended (engine cfg), pushed (trace (engine cfg)), fetches cfg)) <$>
    run hostBeforeEnd (take 4 evs) (start unbounded)
    = Some (true, ["x"; "a"; "b"], 2%nat) /\
  (fun cfg => (_ended (engine cfg), pushed (trace (engine cfg)), fetches cfg)) <$>
    run hostBeforeEnd evs (start unbounded)
    = Some (true, ["x"; "a"; "b"], 3%nat).
Proof. split; vm_compute; reflexivity. Qed.

Lemma read_after_end_witness :
  let s : ResourceStream string :=
    handler eager (page [] None) (engine (pull Returns (start unbounded))) in
  _ended s = true /\
  (_reading s = true -> _read Returns s = (s, None)) /\
  (_reading s = false ->
   _read Returns s = (log (RequestFn (_nextQuery s)) (set_reading true s), None)).
Proof.
  intros s.
  assert (E : _ended s = true) by reflexivity.
  split; [exact E|].
  exact (read_after_end s Returns E).
Defined.

(** C9, as stated, fails: once a page without a next query has ended the
    stream, with nothing in flight, [_read] sets [_reading] and calls the
    fetch operation again. *)
Lemma ended_stream_fetches_again :
  let s : ResourceStream string :=
    handler eager (page [] None) (engine (pull Returns (start unbounded))) in
  _ended s = true /\ _reading s = false /\
  _read Returns s <> (s, None) /\
  _reading (_read Returns s).1 = true /\
  requested (trace s) = [Some ∅] /\
  requested (trace (_read Returns s).1) = [Some ∅; None].
Proof.
  intros s. repeat split; try (vm_compute; reflexivity).
  intros H. apply (f_equal (fun p => _reading p.1)) in H. vm_compute in H.
  discriminate.
Qed.

Lemma empty_page_keeps_pulling_witness :
  let s : ResourceStream string := engine (pull Returns (start unbounded)) in
  let c := eager in
  let r := page [] (Some cursor) in
  err r = None /\
  kept (_resultsToSend s) (results r) = [] /\
  _ended s = false /\
  truthy (nextQuery r) = true /\
  lt1 (_resultsToSend s) = false /\
  geq (_requestsMade s + 1) (_maxApiCalls s) = false /\
  pushAll c [] true s = (true, s) /\
  trace (handler c r s) = trace s ++ [SetImmediate] /\
  _ended (handler c r s) = false /\
  _reading (handler c r s) = false /\
  _nextQuery (handler c r s) = nextQuery r /\
  _requestsMade (handler c r s) = _requestsMade s + 1.
Proof.
  intros s c r.
  do 6 (split; [reflexivity|]).
  exact (empty_page_keeps_pulling c r s eq_refl eq_refl eq_refl eq_refl eq_refl eq_refl).
Defined.

(** C7 fails on the code: when the fetch operation throws, the exception
    leaves [_read]; the stream is not destroyed, [_reading] stays set with
    nothing pending, and every later [_read] is a no-op. *)
Lemma throw_escapes_read :
  let s : ResourceStream string := constructor unbounded in
  _read (Throws "Error.") s =
    (log (RequestFn (Some ∅)) (set_reading true s), Some "Error.") /\
  (fun cfg => (uncaught cfg, destroyed (trace (engine cfg)),
               _reading (engine cfg), inflight cfg, fetches cfg)) <$>
    run anytime [HostRead (Throws "Error.")] (start (T:=string) unbounded)
    = Some (["Error."], [], true, 0%nat, 1%nat) /\
  (fun cfg => (uncaught cfg, destroyed (trace (engine cfg)),
               _reading (engine cfg), inflight cfg, fetches cfg)) <$>
    run anytime [HostRead (Throws "Error."); HostRead Returns]
      (start (T:=string) unbounded)
    = Some (["Error."], [], true, 0%nat, 1%nat).
Proof. repeat split; vm_compute; reflexivity. Qed.


(** ** The scenarios of the test suite *)

(** A second [_read] while the first fetch is pending calls nothing. *)
Example read_twice_fetches_once :
  outcome <$> run anytime [HostRead Returns; HostRead Returns] (start unbounded)
  = Some (false, [], [Some ∅], 0%nat).
Proof. vm_compute. reflexivity. Qed.

(** [maxResults = 100] and a page of two items leave a budget of 98. *)
Example budget_counts_down :
  (fun cfg => _resultsToSend (engine cfg)) <$>
    run anytime [HostRead Returns; Callback eager (page ["a"; "b"] None)]
      (start {| query := Some ∅; maxApiCalls := -1; maxResults := 100 |})
  = Some (Fin 98).
Proof. vm_compute. reflexivity. Qed.

(** [maxResults = 1] and a first page [a, b, c]: only [a] is delivered, the
    stream ends, nothing more is queued. *)
Example one_result_only :
  outcome <$>
    run anytime [HostRead Returns; Callback eager (page ["a"; "b"; "c"] (Some cursor))]
      (start oneResult)
  = Some (true, ["a"], [Some ∅], 0%nat).
Proof. vm_compute. reflexivity. Qed.

(** The consumer ends the stream on seeing [b] of [a, b, c]: [c] is never
    pushed and no pull is queued, although there is a next page. *)
Example stop_at_b :
  outcome <$>
    run anytime
      [HostRead Returns; Callback (stopAt "b") (page ["a"; "b"; "c"] (Some cursor))]
      (start unbounded)
  = Some (true, ["a"; "b"], [Some ∅], 0%nat).
Proof. vm_compute. reflexivity. Qed.

(** A full buffer: the engine waits for the stream layer to read again. *)
Example full_buffer_waits :
  outcome <$>
    run anytime [HostRead Returns; Callback full (page ["a"] (Some ∅))] (start unbounded)
  = Some (false, ["a"], [Some ∅], 0%nat).
Proof. vm_compute. reflexivity. Qed.

(** Neither full nor ended: the next pull is queued, and it fetches the next
    page with the cursor of the first. *)
Example keeps_reading :
  outcome <$>
    run anytime
      [HostRead Returns; Callback eager (page ["a"] (Some cursor)); Immediate Returns]
      (start unbounded)
  = Some (false, ["a"], [Some ∅; Some cursor], 1%nat).
Proof. vm_compute. reflexivity. Qed.

(** Three items and a next page, then an empty last page. *)
Example two_pages :
  outcome <$>
    run anytime
      [HostRead Returns; Callback eager (page ["a"; "b"; "c"] (Some cursor));
       Immediate Returns; Callback eager (page [] None)]
      (start unbounded)
  = Some (true, ["a"; "b"; "c"], [Some ∅; Some cursor], 1%nat).
Proof. vm_compute. reflexivity. Qed.

(** The values after [nextQuery] leave no mark on the engine. *)
Example other_arguments_dropped :
  let s := engine (pull Returns (start unbounded)) in
  handler eager
    {| err := None; results := []; nextQuery := Some ∅;
       rest := [JsObj "{status:OK}"; JsNum 10] |} s
  = handler eager (page [] (Some ∅)) s.
Proof. reflexivity. Qed.


(** * Further properties *)

(** ** The handler on a live stream *)

Section Live.

Context {T : Type}.

Implicit Types (cfg : Config T) (s : ResourceStream T) (c : Consumer T).

Lemma extend_nil s : extend [] s = s.
Proof. destruct s. unfold extend. simpl. by rewrite app_nil_r. Qed.

Lemma extend_extend d1 d2 s : extend d2 (extend d1 s) = extend (d1 ++ d2) s.
Proof. unfold extend. simpl. by rewrite app_assoc. Qed.

(** With listeners that do nothing, the loop pushes every item of a live
    stream; [more] is what the last push answered. *)
Lemma pushAll_quiet_exact c rs m s :
  quiet c -> _ended s = false ->
  exists m', pushAll c rs m s = (m', extend (map Push rs) s) /\
    (rs = [] -> m' = m) /\
    ((forall s x, more (c s x) = true) -> m = true -> m' = true) /\
    (rs <> [] -> (forall s x, more (c s x) = false) -> m' = false).
Proof.
  intros Q. revert m s. induction rs as [|x rs IH]; intros m s E; cbn [pushAll].
  - exists m. rewrite extend_nil. done.
  - rewrite E. unfold push. rewrite Q. cbn [foldl].
    destruct (IH (more (c s x)) (log (Push x) s) E) as (m' & -> & H0 & H1 & H2).
    exists m'. split; [|split; [done|split]].
    + f_equal. change (log (Push x) s) with (extend [Push x] s).
      by rewrite extend_extend.
    + intros A _. apply H1; [done|apply A].
    + intros _ A. destruct rs as [|y rs]; [rewrite H0; [apply A|done]|].
      by apply H2.
Qed.

(** The handler on a live stream whose listeners do nothing, in full. *)
Lemma handler_live c (r : Response T) s :
  err r = None -> quiet c -> _ended s = false ->
  exists m',
    (kept (_resultsToSend s) (results r) = [] -> m' = true) /\
    ((forall s x, more (c s x) = true) -> m' = true) /\
    (kept (_resultsToSend s) (results r) <> [] ->
     (forall s x, more (c s x) = false) -> m' = false) /\
    handler c r s =
    {| _ended := finishes r s;
       _maxApiCalls := _maxApiCalls s;
       _nextQuery := nextQuery r;
       _reading := false;
       _requestsMade := _requestsMade s + 1;
       _resultsToSend := spend (_resultsToSend s) (results r);
       trace := trace s ++ map Push (kept (_resultsToSend s) (results r)) ++
                if finishes r s then [SuperEnd]
                else if m' then [SetImmediate] else [] |}.
Proof.
  intros He Q E. unfold handler, finishes. rewrite He.
  set (s1 := match _resultsToSend (set_nextQuery (nextQuery r) s) with
             | Fin n => _ | Infinity => _ end).
  assert (E1 : _ended s1 = false) by (subst s1; simpl; by destruct (_resultsToSend s)).
  assert (T1 : trace s1 = trace s) by (subst s1; simpl; by destruct (_resultsToSend s)).
  assert (Q1 : _nextQuery s1 = nextQuery r) by (subst s1; simpl; by destruct (_resultsToSend s)).
  assert (B1 : _resultsToSend s1 = spend (_resultsToSend s) (results r))
    by (subst s1; simpl; destruct (_resultsToSend s) eqn:B; simpl; congruence).
  assert (N1 : _requestsMade s1 = _requestsMade s) by (subst s1; simpl; by destruct (_resultsToSend s)).
  assert (M1 : _maxApiCalls s1 = _maxApiCalls s) by (subst s1; simpl; by destruct (_resultsToSend s)).
  simpl. clearbody s1.
  destruct (pushAll_quiet_exact c (kept (_resultsToSend s) (results r)) true s1 Q E1)
    as (m' & -> & H0 & H1 & H2).
  exists m'. split; [by auto|]. split; [by auto|]. split; [by auto|].
  cbn [extend _nextQuery _resultsToSend _requestsMade _maxApiCalls set_requestsMade].
  rewrite Q1, B1, N1, M1.
  destruct (negb (truthy (nextQuery r)) || _ || _); simpl.
  - rewrite andb_false_r. simpl.
    unfold set_reading, end_, log, set_ended, set_requestsMade, extend. simpl.
    rewrite T1, M1, Q1, B1. by rewrite <- app_assoc.
  - rewrite E1. simpl. rewrite andb_true_r.
    destruct m'; simpl;
      unfold set_reading, log, set_requestsMade, extend; simpl;
      rewrite T1, M1, Q1, B1, E1; by rewrite ?app_nil_r, <- ?app_assoc.
Qed.

End Live.

(** ** Serving pages in turn *)

Section Feeding.

Context {T : Type}.

Implicit Types (cfg : Config T) (s : ResourceStream T) (c : Consumer T)
  (tr : list (Effect T)).

Lemma pushed_app tr1 tr2 : pushed (tr1 ++ tr2) = pushed tr1 ++ pushed tr2.
Proof. apply omap_app. Qed.

Lemma requested_app tr1 tr2 : requested (tr1 ++ tr2) = requested tr1 ++ requested tr2.
Proof. apply omap_app. Qed.

Lemma immediates_app tr1 tr2 :
  immediates (tr1 ++ tr2) = (immediates tr1 + immediates tr2)%nat.
Proof. unfold immediates. by rewrite omap_app, length_app. Qed.

Lemma pushed_pushes (l : list T) : pushed (map Push l) = l.
Proof. induction l as [|x l IH]; simpl; [done|]. by rewrite IH. Qed.

Lemma requested_pushes (l : list T) : requested (map Push l) = [].
Proof. induction l as [|x l IH]; simpl; done. Qed.

Lemma immediates_pushes (l : list T) : immediates (map Push l) = 0%nat.
Proof. induction l as [|x l IH]; simpl; done. Qed.

Lemma greedy_quiet c : greedy c -> quiet c.
Proof. intros G s x. by rewrite G. Qed.

(** From a configuration that waits for the answer to its one fetch. *)
Lemma feed_awaiting c pages cfg :
  greedy c ->
  inflight cfg = 1%nat -> _reading (engine cfg) = true ->
  _ended (engine cfg) = false -> fired cfg = immediates (trace (engine cfg)) ->
  pushed (trace (engine (feed c pages cfg))) =
    pushed (trace (engine cfg)) ++
    deliverFrom (_resultsToSend (engine cfg)) (_requestsMade (engine cfg))
      (_maxApiCalls (engine cfg)) pages /\
  fired (feed c pages cfg) = immediates (trace (engine (feed c pages cfg))) /\
  (Exists (fun p => nextQuery p = None) (served pages) ->
   _ended (engine (feed c pages cfg)) = true /\ inflight (feed c pages cfg) = 0%nat).
Proof.
  intros G. revert cfg. induction pages as [|p ps IH]; intros cfg I R E F.
  - simpl. rewrite app_nil_r. split; [done|]. split; [done|].
    by intros X0%Exists_nil.
  - cbn [feed deliverFrom served]. cbn [step]. rewrite I.
    destruct (err p) as [e|] eqn:He.
    + rewrite (handler_err c p _ e He). cbn [step engine fired trace log].
      rewrite immediates_snoc, Nat.add_0_r, F, Nat.ltb_irrefl. simpl.
      rewrite pushed_snoc, immediates_snoc, !app_nil_r, Nat.add_0_r.
      split; [done|]. split; [done|]. by intros X0%Exists_nil.
    + destruct (handler_live c p (engine cfg) He (greedy_quiet c G) E)
        as (m' & _ & Hm & _ & ->).
      rewrite Hm by (intros s x; by rewrite G).
      fold (finishes p (engine cfg)).
      destruct (finishes p (engine cfg)) eqn:Fin.
      * (* the page ends the stream *)
        cbn [step engine fired trace].
        rewrite !immediates_app, immediates_pushes, F. simpl.
        rewrite Nat.add_0_r, Nat.ltb_irrefl. simpl.
        rewrite !pushed_app, pushed_pushes, !immediates_app, immediates_pushes.
        simpl. rewrite !app_nil_r, Nat.add_0_r. done.
      * (* the queued pull fetches the next page *)
        cbn [step engine fired trace].
        rewrite !immediates_app, immediates_pushes, F. simpl.
        change (immediates (T:=T) [SetImmediate]) with 1%nat.
        assert (L : (immediates (trace (engine cfg)) <?
                     immediates (trace (engine cfg)) + 1)%nat = true)
          by (apply Nat.ltb_lt; lia).
        rewrite L. rewrite pull_idle by done.
        match goal with |- context [feed c ps ?x] => set (cfg2 := x) end.
        destruct (IH cfg2) as (P & F' & X); try done.
        { subst cfg2. simpl. rewrite !immediates_app, immediates_pushes.
          change (immediates (T:=T) [SetImmediate]) with 1%nat.
          change (immediates (T:=T) [RequestFn (nextQuery p)]) with 0%nat. lia. }
        assert (P2 : pushed (trace (engine cfg2)) =
                     pushed (trace (engine cfg)) ++
                     kept (_resultsToSend (engine cfg)) (results p)).
        { subst cfg2. simpl. rewrite !pushed_app, pushed_pushes. simpl.
          by rewrite !app_nil_r. }
        rewrite P, P2, <- app_assoc.
        split; [done|]. split; [done|].
        intros H. apply X. unfold finishes in Fin.
        destruct (truthy (nextQuery p)) eqn:Tq; [|done].
        apply Exists_cons in H as [H|H]; [|done]. by rewrite H in Tq.
Qed.

End Feeding.

Section Delivery.

Context {T : Type}.

Implicit Types (cfg : Config T) (c : Consumer T) (pages : list (Response T)).

Lemma take_max_cons {A} (z : Z) (x : A) (l : list A) :
  take (Z.to_nat (Z.max 1 z)) (x :: l) = x :: take (Z.to_nat (Z.max 1 z) - 1) l.
Proof.
  destruct (Z.to_nat (Z.max 1 z)) as [|k] eqn:K; [lia|].
  simpl. by rewrite Nat.sub_0_r.
Qed.

(** Page by page is the same as cutting the concatenation. *)
Lemma deliverFrom_spec b m cap pages :
  deliverFrom b m cap pages =
  match b with Fin z => take (Z.to_nat z) | Infinity => id end
    (concat (map results
       (match cap with
        | Fin n => take (Z.to_nat (Z.max 1 (n - m)))
        | Infinity => id
        end (served pages)))).
Proof.
  revert b m. induction pages as [|p ps IH]; intros b m; cbn [deliverFrom served].
  - destruct b, cap; repeat first [rewrite take_nil | progress simpl]; done.
  - destruct (err p) as [e|] eqn:He.
    { destruct b, cap; repeat first [rewrite take_nil | progress simpl]; done. }
    rewrite IH. clear IH.
    set (rest := if truthy (nextQuery p) then served ps else []).
    assert (Hrest : truthy (nextQuery p) = false -> rest = [])
      by (subst rest; by intros ->).
    assert (Hrest' : truthy (nextQuery p) = true -> rest = served ps)
      by (subst rest; by intros ->).
    destruct (truthy (nextQuery p)) eqn:Tq; cbn [negb orb].
    + rewrite Hrest' by done. clear Hrest Hrest' rest.
      destruct b as [z|], cap as [n|]; cbn [kept spend lt1 geq splice0 id orb].
      * rewrite take_max_cons. cbn [map concat]. rewrite take_app. unfold splice0.
        f_equal. rewrite length_take.
        destruct (Z.ltb_spec (z - Z.of_nat (Z.to_nat z `min` length (results p))) 1)
          as [L|L]; cbn [orb].
        { replace (Z.to_nat z - length (results p))%nat with 0%nat by lia. done. }
        destruct (Z.leb_spec n (m + 1)) as [C|C].
        { replace (Z.to_nat (Z.max 1 (n - m)) - 1)%nat with 0%nat by lia.
          simpl. by rewrite take_nil. }
        replace (Z.to_nat (z - Z.of_nat (Z.to_nat z `min` length (results p))))
          with (Z.to_nat z - length (results p))%nat by lia.
        replace (Z.to_nat (Z.max 1 (n - (m + 1))))
          with (Z.to_nat (Z.max 1 (n - m)) - 1)%nat by lia.
        done.
      * cbn [map concat]. rewrite take_app. unfold splice0. f_equal.
        rewrite length_take.
        destruct (Z.ltb_spec (z - Z.of_nat (Z.to_nat z `min` length (results p))) 1)
          as [L|L]; cbn [orb].
        { replace (Z.to_nat z - length (results p))%nat with 0%nat by lia. done. }
        replace (Z.to_nat (z - Z.of_nat (Z.to_nat z `min` length (results p))))
          with (Z.to_nat z - length (results p))%nat by lia.
        done.
      * rewrite take_max_cons. cbn [map concat]. f_equal.
        destruct (Z.leb_spec n (m + 1)) as [C|C].
        { replace (Z.to_nat (Z.max 1 (n - m)) - 1)%nat with 0%nat by lia. done. }
        replace (Z.to_nat (Z.max 1 (n - (m + 1))))
          with (Z.to_nat (Z.max 1 (n - m)) - 1)%nat by lia.
        done.
      * done.
    + rewrite Hrest by done. clear Hrest Hrest' rest.
      destruct b as [z|], cap as [n|]; cbn [kept spend lt1 geq splice0 id orb];
        rewrite ?take_max_cons, ?take_nil; cbn [map concat];
        rewrite ?app_nil_r; done.
Qed.

(** X1: when the fetch operation answers with [pages] in turn and the
    consumer takes everything, the items pushed downstream are exactly the
    results of the pages up to the first one without a next query (or
    before the first failure), of at most [maxApiCalls] pages (one at least),
    cut to the first [maxResults] items; [-1] lifts a cap. *)
Theorem feed_delivers (args : ParsedArguments) c pages :
  greedy c ->
  pushed (trace (engine (feed c pages (pull Returns (start args)))))
  = delivered args pages.
Proof.
  intros G.
  destruct (feed_awaiting c pages (pull Returns (start args)) G)
    as (P & _ & _); try done.
  rewrite P. simpl. rewrite deliverFrom_spec.
  unfold delivered, limitItems, limitCalls, orInfinity.
  destruct (maxResults args =? -1), (maxApiCalls args =? -1);
    rewrite ?Z.sub_0_r; done.
Qed.

End Delivery.

(** ** Counters and cursor *)

Section Counters.

Context {T : Type}.

Implicit Types (cfg : Config T) (ev : Event T) (s : ResourceStream T).

(** The five things a step can do to the engine. *)
Lemma step_cases ev cfg cfg' :
  sound cfg -> step ev cfg = Some cfg' ->
  engine cfg' = engine cfg \/
  (_reading (engine cfg) = false /\
   engine cfg' =
     log (RequestFn (_nextQuery (engine cfg))) (set_reading true (engine cfg))) \/
  (exists e, engine cfg' = log (Destroy e) (engine cfg)) \/
  (exists r, handled r (engine cfg) (engine cfg')) \/
  engine cfg' = end_ (engine cfg).
Proof.
  intros S.
  assert (P : forall o c, engine c = engine cfg ->
    engine (pull o c) = engine cfg \/
    (_reading (engine cfg) = false /\
     engine (pull o c) =
       log (RequestFn (_nextQuery (engine cfg))) (set_reading true (engine cfg)))).
  { intros o c E. destruct (_reading (engine c)) eqn:R.
    - left. by rewrite pull_reading.
    - right. rewrite pull_idle by done. simpl. by rewrite <- E. }
  destruct ev as [o|o|c r|]; simpl.
  - intros [= <-]. destruct (P o cfg eq_refl) as [H|H]; auto.
  - destruct (_ <? _)%nat; [|done]. intros [= <-].
    match goal with |- context [pull o ?c] => destruct (P o c eq_refl) as [H|H] end;
      auto.
  - intros St. destruct (callback_inv c r cfg cfg' S St) as (Rd & _ & ->). simpl.
    destruct (err r) as [e|] eqn:He.
    + right; right; left. exists e. by apply handler_err.
    + right; right; right; left. exists r. apply handler_ok; [done..|apply S].
  - intros [= <-]. by repeat right.
Qed.

Lemma num_le_refl (x : num) : num_le x x.
Proof. destruct x; simpl; [lia|done]. Qed.

Lemma num_le_trans (x y z : num) : num_le x y -> num_le y z -> num_le x z.
Proof. destruct x, y, z; simpl; try done; lia. Qed.

Lemma spend_le (b : num) (l : list T) : num_le (spend b l) b.
Proof. destruct b; simpl; [lia|done]. Qed.

(** What a single step does to the fields. *)
Lemma step_fields ev cfg cfg' :
  sound cfg -> step ev cfg = Some cfg' ->
  num_le (_resultsToSend (engine cfg')) (_resultsToSend (engine cfg)) /\
  (immediates (trace (engine cfg')) <= immediates (trace (engine cfg)) + 1)%nat /\
  (immediates (trace (engine cfg)) <= immediates (trace (engine cfg')))%nat /\
  (immediates (trace (engine cfg')) = immediates (trace (engine cfg)) \/
   _requestsMade (engine cfg') = _requestsMade (engine cfg) + 1) /\
  (_nextQuery (engine cfg') = _nextQuery (engine cfg) \/
   _requestsMade (engine cfg') = _requestsMade (engine cfg) + 1).
Proof.
  intros S St.
  destruct (step_cases ev cfg cfg' S St) as [->|[[_ ->]|[[e ->]|[[r H]| ->]]]]; simpl;
    rewrite ?immediates_snoc, ?Nat.add_0_r.
  all: try (split; [apply num_le_refl|repeat split; auto; lia]).
  destruct H as [_ _ Hn _ Hb _ _ _ Hi _ _ _ _ _].
  rewrite Hb. split; [apply spend_le|]. repeat split; auto; lia.
Qed.

(** X4: whatever happens to a stream, [_ended] never goes back to [false],
    [_requestsMade] never decreases, the results budget never grows, the
    call cap stays as constructed and the log only grows at its end. *)
Theorem fields_only_move_one_way (args : ParsedArguments) cfg cfg' :
  reach anytime args cfg ->
  reachFrom anytime cfg cfg' ->
  (_ended (engine cfg) = true -> _ended (engine cfg') = true) /\
  _requestsMade (engine cfg) <= _requestsMade (engine cfg') /\
  num_le (_resultsToSend (engine cfg')) (_resultsToSend (engine cfg)) /\
  _maxApiCalls (engine cfg') = _maxApiCalls (engine cfg) /\
  trace (engine cfg) `prefix_of` trace (engine cfg').
Proof.
  intros R. pose proof (sound_reach _ _ _ R) as S.
  induction 1 as [|c1 ev c2 H IH G St].
  - split; [done|]. split; [lia|]. split; [apply num_le_refl|]. done.
  - destruct IH as (E & N & B & M & P).
    assert (S1 : sound c1) by (by eapply sound_reachFrom).
    destruct (step_facts ev c1 c2 S1 St) as (Fm & Fe & [d Fx] & Fn).
    destruct (step_fields ev c1 c2 S1 St) as (Fb & _).
    repeat split.
    + auto.
    + lia.
    + by eapply num_le_trans.
    + congruence.
    + etrans; [exact P|]. rewrite Fx. by apply prefix_app_r.
Qed.

Lemma counters_inv (args : ParsedArguments) cfg :
  reach anytime args cfg ->
  0 <= _requestsMade (engine cfg) /\
  Z.of_nat (immediates (trace (engine cfg))) <= _requestsMade (engine cfg) /\
  (fired cfg <= immediates (trace (engine cfg)))%nat.
Proof.
  induction 1 as [|c1 ev c2 H IH G St]; [unfold immediates; simpl; lia|].
  pose proof (sound_reach _ _ _ H) as S1.
  destruct (step_facts ev c1 c2 S1 St) as (_ & _ & _ & Fn).
  destruct (step_fields ev c1 c2 S1 St) as (_ & Fi & Fj & Fk & _).
  destruct IH as (N & I & F). split; [lia|]. split; [lia|].
  assert (FP : forall o (k : Config T), fired (pull o k) = fired k).
  { intros o k. unfold pull. by destruct (_read o (engine k)). }
  destruct ev as [o|o|c r|]; simpl in St.
  - injection St as <-. rewrite FP in *. lia.
  - destruct (fired c1 <? immediates (trace (engine c1)))%nat eqn:L; [|done].
    apply Nat.ltb_lt in L. injection St as <-. rewrite FP in *. simpl in *. lia.
  - destruct (inflight c1); [done|]. injection St as <-. simpl in *. lia.
  - injection St as <-. simpl in *. lia.
Qed.

(** The caps stay as constructed; the budget only goes down from there. *)
Lemma caps_inv (args : ParsedArguments) cfg :
  reach anytime args cfg ->
  _maxApiCalls (engine cfg) = orInfinity (maxApiCalls args) /\
  num_le (_resultsToSend (engine cfg)) (orInfinity (maxResults args)).
Proof.
  induction 1 as [|c1 ev c2 H IH G St]; [split; [done|apply num_le_refl]|].
  pose proof (sound_reach _ _ _ H) as S1.
  destruct (step_facts ev c1 c2 S1 St) as (Fm & _).
  destruct (step_fields ev c1 c2 S1 St) as (Fb & _).
  destruct IH as (M & B). split; [congruence|]. by eapply num_le_trans.
Qed.

(** X5: in every configuration the fetch calls made are the requests
    counted plus the one being handled ([_reading], which also stays set
    after a fetch that failed or threw); no more pulls were queued than
    requests counted, and no more of them have run than were queued. *)
Theorem calls_are_accounted_for (args : ParsedArguments) cfg :
  reach anytime args cfg ->
  Z.of_nat (fetches cfg) =
    _requestsMade (engine cfg) + (if _reading (engine cfg) then 1 else 0) /\
  0 <= _requestsMade (engine cfg) /\
  Z.of_nat (immediates (trace (engine cfg))) <= _requestsMade (engine cfg) /\
  (fired cfg <= immediates (trace (engine cfg)))%nat.
Proof.
  intros R. split; [apply (sd_count _ (sound_reach _ _ _ R))|].
  exact (counters_inv args cfg R).
Qed.

(** X2: the first fetch is called with the query of the descriptor, and
    every later one with the cursor the last successful page reported:
    [_read], when it fetches, passes [_nextQuery], which is the
    descriptor's query until a page has been handled and that page's
    [nextQuery] right after it. *)
Theorem fetch_follows_cursor (args : ParsedArguments) cfg :
  reach anytime args cfg ->
  (_requestsMade (engine cfg) = 0 -> _nextQuery (engine cfg) = query args) /\
  (_reading (engine cfg) = false -> forall o,
     requested (trace (engine (pull o cfg))) =
     requested (trace (engine cfg)) ++ [_nextQuery (engine cfg)]) /\
  (forall c r cfg1 o cfg2,
     err r = None ->
     step (Callback c r) cfg = Some cfg1 ->
     step (HostRead o) cfg1 = Some cfg2 ->
     requested (trace (engine cfg2)) =
     requested (trace (engine cfg)) ++ [nextQuery r]).
Proof.
  intros R. pose proof (sound_reach _ _ _ R) as S. split; [|split].
  - induction R as [|c1 ev c2 H IH G St]; [done|].
    pose proof (sound_reach _ _ _ H) as S1.
    destruct (counters_inv args c1 H) as (N & _).
    destruct (step_facts ev c1 c2 S1 St) as (_ & _ & _ & Fn).
    destruct (step_fields ev c1 c2 S1 St) as (_ & _ & _ & _ & [Fq|Fq]).
    + intros Z. rewrite Fq. apply IH; [by eapply sound_reach|lia].
    + intros Z. lia.
  - intros Rd o. rewrite pull_idle by done. simpl. by rewrite requested_snoc.
  - intros c r cfg1 o cfg2 He St1 St2.
    destruct (callback_inv c r cfg cfg1 S St1) as (Rd & _ & ->).
    destruct (handler_ok c r (engine cfg) He Rd (sd_wf _ S))
      as [Hr Hq _ _ _ _ Hreq _ _ _ _ _ _ _].
    simpl in St2. injection St2 as <-.
    rewrite pull_idle by done. simpl.
    by rewrite requested_snoc, Hreq, Hq.
Qed.

End Counters.

(** ** Caps at their edges, full buffers, late pages *)

Section Edges.

Context {T : Type}.

Implicit Types (cfg : Config T) (s : ResourceStream T) (c : Consumer T).

(** X3: when the pages served in turn include one without a next query
    (and none fails before it), the stream has ended after them, with no
    fetch pending and no queued pull left to run. *)
Theorem feed_ends (args : ParsedArguments) c (pages : list (Response T)) :
  greedy c ->
  Exists (fun p => nextQuery p = None) (served pages) ->
  let cfg := feed c pages (pull Returns (start args)) in
  _ended (engine cfg) = true /\
  inflight cfg = 0%nat /\
  fired cfg = immediates (trace (engine cfg)).
Proof.
  intros G X cfg.
  destruct (feed_awaiting c pages (pull Returns (start args)) G)
    as (_ & F & E); try done.
  destruct (E X). done.
Qed.

(** X6: without caps ([maxResults = -1], [maxApiCalls = -1]) a page is never
    cut and only a missing next query ends the stream: on a live stream
    whose listeners do nothing, the handler pushes the whole page and the
    stream has ended afterwards exactly when [nextQuery] is absent. *)
Theorem no_caps_only_exhaustion (args : ParsedArguments) cfg c (r : Response T) cfg' :
  maxResults args = -1 ->
  maxApiCalls args = -1 ->
  reach anytime args cfg ->
  err r = None ->
  quiet c ->
  _ended (engine cfg) = false ->
  step (Callback c r) cfg = Some cfg' ->
  pushed (trace (engine cfg')) = pushed (trace (engine cfg)) ++ results r /\
  _ended (engine cfg') = negb (truthy (nextQuery r)) /\
  _resultsToSend (engine cfg') = Infinity.
Proof.
  intros Hk Hn R He Q E St. pose proof (sound_reach _ _ _ R) as S.
  destruct (caps_inv args cfg R) as (M & B).
  rewrite Hn in M. rewrite Hk in B. simpl in M, B.
  destruct (_resultsToSend (engine cfg)) eqn:Bud; [done|].
  destruct (callback_inv c r cfg cfg' S St) as (_ & _ & ->). simpl.
  destruct (handler_live c r (engine cfg) He Q E) as (m' & _ & _ & _ & ->).
  unfold finishes. rewrite Bud, M. simpl.
  rewrite !pushed_app, pushed_pushes, !orb_false_r.
  split; [|done].
  by destruct (truthy (nextQuery r)), m'; unfold pushed; simpl; rewrite app_nil_r.
Qed.

(** X7: when the buffer is full (every [push] of a page answers [false])
    the handler queues no pull, although it pushed the whole page and
    cleared [_reading]; the next page is fetched only when [_read] is
    called again, and then with the cursor of this page. *)
Theorem full_buffer_queues_nothing cfg c (r : Response T) cfg' :
  err r = None ->
  quiet c ->
  (forall s x, more (c s x) = false) ->
  _ended (engine cfg) = false ->
  kept (_resultsToSend (engine cfg)) (results r) <> [] ->
  step (Callback c r) cfg = Some cfg' ->
  immediates (trace (engine cfg')) = immediates (trace (engine cfg)) /\
  pushed (trace (engine cfg')) =
    pushed (trace (engine cfg)) ++ kept (_resultsToSend (engine cfg)) (results r) /\
  _reading (engine cfg') = false /\
  forall o cfg2, step (HostRead o) cfg' = Some cfg2 ->
    requested (trace (engine cfg2)) =
    requested (trace (engine cfg)) ++ [nextQuery r].
Proof.
  intros He Q Hm E Hk St. simpl in St.
  destruct (inflight cfg); [done|]. injection St as <-. simpl.
  destruct (handler_live c r (engine cfg) He Q E) as (m' & _ & _ & Hf & ->).
  rewrite (Hf Hk Hm). simpl.
  rewrite !immediates_app, immediates_pushes, !pushed_app, pushed_pushes.
  split; [destruct (finishes r (engine cfg)); unfold immediates; simpl; lia|].
  split; [by destruct (finishes r (engine cfg)); unfold pushed; simpl;
            rewrite app_nil_r|].
  split; [done|].
  intros o cfg2 [= <-]. rewrite pull_idle by done. simpl.
  rewrite requested_snoc, !requested_app, requested_pushes.
  by destruct (finishes r (engine cfg)); unfold requested; simpl;
    rewrite app_nil_r.
Qed.

(** X8: a page that arrives after the stream has ended is dropped whole:
    no item is pushed and no pull is queued; yet the request is counted,
    the cursor is stored and the budget is charged for the items the
    handler retained, and [_reading] is cleared. *)
Theorem late_page_is_dropped c (r : Response T) s :
  err r = None ->
  _ended s = true ->
  pushed (trace (handler c r s)) = pushed (trace s) /\
  immediates (trace (handler c r s)) = immediates (trace s) /\
  requested (trace (handler c r s)) = requested (trace s) /\
  _ended (handler c r s) = true /\
  _requestsMade (handler c r s) = _requestsMade s + 1 /\
  _nextQuery (handler c r s) = nextQuery r /\
  _resultsToSend (handler c r s) = spend (_resultsToSend s) (results r) /\
  _reading (handler c r s) = false.
Proof.
  intros He E. unfold handler. rewrite He.
  set (s1 := match _resultsToSend (set_nextQuery (nextQuery r) s) with
             | Fin n => _ | Infinity => _ end).
  assert (E1 : _ended s1 = true) by (subst s1; simpl; by destruct (_resultsToSend s)).
  assert (T1 : trace s1 = trace s) by (subst s1; simpl; by destruct (_resultsToSend s)).
  assert (Q1 : _nextQuery s1 = nextQuery r) by (subst s1; simpl; by destruct (_resultsToSend s)).
  assert (B1 : _resultsToSend s1 = spend (_resultsToSend s) (results r))
    by (subst s1; simpl; destruct (_resultsToSend s) eqn:B; simpl; congruence).
  assert (N1 : _requestsMade s1 = _requestsMade s) by (subst s1; simpl; by destruct (_resultsToSend s)).
  simpl. clearbody s1. rewrite pushAll_ended by done.
  destruct (negb _ || _ || _); simpl; rewrite ?E1; simpl;
    rewrite ?pushed_snoc, ?immediates_snoc, ?requested_snoc, ?app_nil_r,
      ?Nat.add_0_r, T1, Q1, B1, N1; done.
Qed.

(** X9: a call cap of 1, 0 or below (other than [-1]) does not prevent the
    first fetch: the constructor's first [_read] calls the fetch operation,
    and the handler of any successful page then ends the stream. *)
Theorem call_cap_below_two (args : ParsedArguments) cfg c (r : Response T) cfg' :
  maxApiCalls args <> -1 ->
  maxApiCalls args <= 1 ->
  reach anytime args cfg ->
  err r = None ->
  step (Callback c r) cfg = Some cfg' ->
  fetches (pull (T:=T) Returns (start args)) = 1%nat /\
  _ended (engine cfg') = true.
Proof.
  intros Hn1 Hn R He St. split; [done|].
  pose proof (sound_reach _ _ _ R) as S.
  destruct (caps_inv args cfg R) as (M & _).
  destruct (counters_inv args cfg R) as (N & _).
  destruct (callback_inv c r cfg cfg' S St) as (Rd & _ & ->). simpl.
  destruct (handler_ok c r (engine cfg) He Rd (sd_wf _ S))
    as [_ _ _ _ _ _ _ _ _ _ _ Hfin _ _].
  apply Hfin. right; right. rewrite M. unfold orInfinity.
  destruct (Z.eqb_spec (maxApiCalls args) (-1)); [done|]. simpl.
  apply Z.leb_le. lia.
Qed.

(** X10: with a results cap of 0 or below (other than [-1]) the first fetch
    is still made, but no item is ever pushed, and the handler of any
    successful page ends the stream. *)
Theorem results_cap_below_one (args : ParsedArguments) cfg :
  maxResults args <> -1 ->
  maxResults args <= 0 ->
  reach anytime args cfg ->
  fetches (pull (T:=T) Returns (start args)) = 1%nat /\
  pushed (trace (engine cfg)) = [] /\
  forall c r cfg', err r = None -> step (Callback c r) cfg = Some cfg' ->
    _ended (engine cfg') = true.
Proof.
  intros Hk1 Hk R. split; [done|].
  assert (B : forall k : Config T, reach anytime args k ->
    exists b, _resultsToSend (engine k) = Fin b /\ b <= 0).
  { intros k Rk. destruct (caps_inv args k Rk) as (_ & B). unfold orInfinity in B.
    destruct (Z.eqb_spec (maxResults args) (-1)); [done|].
    destruct (_resultsToSend (engine k)) as [b|]; [|done]. exists b. simpl in B.
    split; [done|lia]. }
  split.
  - induction R as [|c1 ev c2 H IH G St]; [done|].
    pose proof (sound_reach _ _ _ H) as S1.
    destruct (B c1 H) as (b & Hb & Hb0).
    destruct (step_cases ev c1 c2 S1 St) as [->|[[_ ->]|[[e ->]|[[r Hd]| ->]]]];
      simpl; rewrite ?pushed_snoc, ?app_nil_r; try done.
    destruct Hd as [_ _ _ _ _ (j & _ & Hp & _) _ _ _ _ _ _ _ _].
    rewrite Hp, IH, Hb. simpl. unfold splice0.
    replace (Z.to_nat b) with 0%nat by lia. by rewrite take_0, take_nil.
  - intros c r cfg' He St. pose proof (sound_reach _ _ _ R) as S.
    destruct (B cfg R) as (b & Hb & Hb0).
    destruct (callback_inv c r cfg cfg' S St) as (Rd & _ & ->). simpl.
    destruct (handler_ok c r (engine cfg) He Rd (sd_wf _ S))
      as [_ _ _ _ _ _ _ _ _ _ _ Hfin _ _].
    apply Hfin. right; left. rewrite Hb. simpl. apply Z.ltb_lt. lia.
Qed.

End Edges.


(** ** A listener that ends the stream *)

Section StopWhen.

Context {T : Type}.

Implicit Types (s : ResourceStream T) (P : T -> bool).

Lemma set_ended_extend_nil s : _ended s = false -> set_ended false (extend [] s) = s.
Proof.
  destruct s. simpl. intros ->. unfold set_ended, extend. simpl.
  by rewrite app_nil_r.
Qed.

Lemma pushAll_stopWhen P rs s :
  _ended s = false ->
  exists d, pushed d = through P rs /\ immediates d = 0%nat /\ requested d = [] /\
    pushAll (stopWhen P) rs true s = (true, set_ended (existsb P rs) (extend d s)).
Proof.
  revert s. induction rs as [|x rs IH]; intros s E; cbn [pushAll through existsb].
  - exists []. by rewrite set_ended_extend_nil.
  - rewrite E. unfold push.
    change (stopWhen P s x)
      with {| more := true; during := if P x then [CallEnd] else [] |}.
    cbn [more during].
    destruct (P x) eqn:Px; cbn [foldl act orb]; cbv beta iota.
    + exists [Push x; SuperEnd]. repeat split; try done.
      rewrite pushAll_ended by done. f_equal.
      unfold end_, log, set_ended, extend. simpl. by rewrite <- app_assoc.
    + destruct (IH (log (Push x) s) E) as (d & Hp & Hi & Hr & ->).
      exists (Push x :: d). simpl. rewrite Hp. repeat split; try done.
      f_equal. unfold log, set_ended, extend. simpl. by rewrite <- app_assoc.
Qed.

(** X11: when a data listener ends the stream at the first item that
    satisfies [P], the handler pushes the retained items up to and
    including that one and none after it; the stream has then ended, and
    the handler queues the next pull only if no item matched and neither
    the cursor nor a cap ended the stream. *)
Theorem listener_end_cuts_page P (r : Response T) s :
  err r = None ->
  _ended s = false ->
  let items := kept (_resultsToSend s) (results r) in
  let ends := existsb P items || finishes r s in
  pushed (trace (handler (stopWhen P) r s)) = pushed (trace s) ++ through P items /\
  _ended (handler (stopWhen P) r s) = ends /\
  immediates (trace (handler (stopWhen P) r s)) =
    (immediates (trace s) + if ends then 0 else 1)%nat /\
  requested (trace (handler (stopWhen P) r s)) = requested (trace s).
Proof.
  intros He E items ends. subst items ends. unfold handler, finishes. rewrite He.
  set (s1 := match _resultsToSend (set_nextQuery (nextQuery r) s) with
             | Fin n => _ | Infinity => _ end).
  assert (E1 : _ended s1 = false) by (subst s1; simpl; by destruct (_resultsToSend s)).
  assert (T1 : trace s1 = trace s) by (subst s1; simpl; by destruct (_resultsToSend s)).
  assert (Q1 : _nextQuery s1 = nextQuery r) by (subst s1; simpl; by destruct (_resultsToSend s)).
  assert (B1 : _resultsToSend s1 = spend (_resultsToSend s) (results r))
    by (subst s1; simpl; destruct (_resultsToSend s) eqn:B; simpl; congruence).
  assert (N1 : _requestsMade s1 = _requestsMade s) by (subst s1; simpl; by destruct (_resultsToSend s)).
  assert (M1 : _maxApiCalls s1 = _maxApiCalls s) by (subst s1; simpl; by destruct (_resultsToSend s)).
  simpl. clearbody s1.
  destruct (pushAll_stopWhen P (kept (_resultsToSend s) (results r)) s1 E1)
    as (d & Hp & Hi & Hr & ->).
  cbn [set_ended extend _nextQuery _resultsToSend _requestsMade _maxApiCalls
       set_requestsMade].
  rewrite Q1, B1, N1, M1.
  destruct (negb (truthy (nextQuery r)) || _ || _); simpl;
    destruct (existsb P _); simpl;
    rewrite ?pushed_snoc, ?immediates_snoc, ?requested_snoc, ?pushed_app,
      ?immediates_app, ?requested_app, ?app_nil_r, T1, Hp, Hi, Hr, ?app_nil_r;
    repeat split; try done; lia.
Qed.

End StopWhen.

(** ** Instances *)

Lemma feed_delivers_witness :
  let args := oneResult in
  let c := eager in
  let pages := [page ["a"; "b"; "c"] (Some cursor); page ["d"] None] in
  greedy c /\
  pushed (trace (engine (feed c pages (pull Returns (start args)))))
  = delivered args pages.
Proof.
  intros args c pages.
  assert (G : greedy c) by (intros s x; reflexivity).
  split; [exact G|].
  exact (feed_delivers args c pages G).
Defined.

Lemma feed_ends_witness :
  let args := unbounded in
  let c := eager in
  let pages := [page ["a"] (Some cursor); page ["b"] None] in
  greedy c /\
  Exists (fun p => nextQuery p = None) (served pages) /\
  let cfg := feed c pages (pull Returns (start args)) in
  _ended (engine cfg) = true /\
  inflight cfg = 0%nat /\
  fired cfg = immediates (trace (engine cfg)).
Proof.
  intros args c pages.
  assert (G : greedy c) by (intros s x; reflexivity).
  assert (X : Exists (fun p : Response string => nextQuery p = None) (served pages)).
  { simpl. apply Exists_cons_tl, Exists_cons_hd. reflexivity. }
  split; [exact G|]. split; [exact X|].
  exact (feed_ends args c pages G X).
Defined.

Lemma fetch_follows_cursor_witness :
  let args := unbounded in
  let cfg : Config string := pull Returns (start unbounded) in
  reach anytime args cfg /\
  (_requestsMade (engine cfg) = 0 -> _nextQuery (engine cfg) = query args) /\
  (_reading (engine cfg) = false -> forall o,
     requested (trace (engine (pull o cfg))) =
     requested (trace (engine cfg)) ++ [_nextQuery (engine cfg)]) /\
  (forall c r cfg1 o cfg2,
     err r = None ->
     step (Callback c r) cfg = Some cfg1 ->
     step (HostRead o) cfg1 = Some cfg2 ->
     requested (trace (engine cfg2)) =
     requested (trace (engine cfg)) ++ [nextQuery r]).
Proof.
  intros args cfg.
  assert (R : reach anytime args cfg).
  { apply (reach_step _ _ (start args) (HostRead Returns));
      [apply reach_here|reflexivity|reflexivity]. }
  split; [exact R|].
  exact (fetch_follows_cursor args cfg R).
Defined.

Lemma fields_only_move_one_way_witness :
  let args := twoCalls in
  let cfg : Config string := pull Returns (start twoCalls) in
  let cfg' := {| engine := handler eager (page ["a"] (Some cursor)) (engine cfg);
                 inflight := 0; fired := 0; uncaught := [] |} in
  reach anytime args cfg /\
  reachFrom anytime cfg cfg' /\
  (_ended (engine cfg) = true -> _ended (engine cfg') = true) /\
  _requestsMade (engine cfg) <= _requestsMade (engine cfg') /\
  num_le (_resultsToSend (engine cfg')) (_resultsToSend (engine cfg)) /\
  _maxApiCalls (engine cfg') = _maxApiCalls (engine cfg) /\
  trace (engine cfg) `prefix_of` trace (engine cfg').
Proof.
  intros args cfg cfg'.
  assert (R : reach anytime args cfg).
  { apply (reach_step _ _ (start args) (HostRead Returns));
      [apply reach_here|reflexivity|reflexivity]. }
  assert (R' : reachFrom anytime cfg cfg').
  { apply (reach_step _ _ cfg (Callback eager (page ["a"] (Some cursor))));
      [apply reach_here|reflexivity|reflexivity]. }
  split; [exact R|]. split; [exact R'|].
  exact (fields_only_move_one_way args cfg cfg' R R').
Defined.

Lemma calls_are_accounted_for_witness :
  let args := unbounded in
  let cfg : Config string := pull (Throws "Error.") (start unbounded) in
  reach anytime args cfg /\
  Z.of_nat (fetches cfg) =
    _requestsMade (engine cfg) + (if _reading (engine cfg) then 1 else 0) /\
  0 <= _requestsMade (engine cfg) /\
  Z.of_nat (immediates (trace (engine cfg))) <= _requestsMade (engine cfg) /\
  (fired cfg <= immediates (trace (engine cfg)))%nat.
Proof.
  intros args cfg.
  assert (R : reach anytime args cfg).
  { apply (reach_step _ _ (start args) (HostRead (Throws "Error.")));
      [apply reach_here|reflexivity|reflexivity]. }
  split; [exact R|].
  exact (calls_are_accounted_for args cfg R).
Defined.

Lemma no_caps_only_exhaustion_witness :
  let args := unbounded in
  let cfg : Config string := pull Returns (start unbounded) in
  let c := eager in
  let r := page ["a"; "b"] (Some cursor) in
  let cfg' := {| engine := handler c r (engine cfg); inflight := 0;
                 fired := 0; uncaught := [] |} in
  maxResults args = -1 /\
  maxApiCalls args = -1 /\
  reach anytime args cfg /\
  err r = None /\
  quiet c /\
  _ended (engine cfg) = false /\
  step (Callback c r) cfg = Some cfg' /\
  pushed (trace (engine cfg')) = pushed (trace (engine cfg)) ++ results r /\
  _ended (engine cfg') = negb (truthy (nextQuery r)) /\
  _resultsToSend (engine cfg') = Infinity.
Proof.
  intros args cfg c r cfg'.
  assert (R : reach anytime args cfg).
  { apply (reach_step _ _ (start args) (HostRead Returns));
      [apply reach_here|reflexivity|reflexivity]. }
  assert (Q : quiet c) by (intros s x; reflexivity).
  assert (St : step (Callback c r) cfg = Some cfg') by reflexivity.
  do 2 (split; [reflexivity|]). split; [exact R|]. split; [reflexivity|].
  split; [exact Q|]. split; [reflexivity|]. split; [exact St|].
  exact (no_caps_only_exhaustion args cfg c r cfg' eq_refl eq_refl R eq_refl Q
           eq_refl St).
Defined.

Lemma full_buffer_queues_nothing_witness :
  let cfg : Config string := pull Returns (start unbounded) in
  let c := full in
  let r := page ["a"; "b"] (Some cursor) in
  let cfg' := {| engine := handler c r (engine cfg); inflight := 0;
                 fired := 0; uncaught := [] |} in
  err r = None /\
  quiet c /\
  (forall s x, more (c s x) = false) /\
  _ended (engine cfg) = false /\
  kept (_resultsToSend (engine cfg)) (results r) <> [] /\
  step (Callback c r) cfg = Some cfg' /\
  immediates (trace (engine cfg')) = immediates (trace (engine cfg)) /\
  pushed (trace (engine cfg')) =
    pushed (trace (engine cfg)) ++ kept (_resultsToSend (engine cfg)) (results r) /\
  _reading (engine cfg') = false /\
  forall o cfg2, step (HostRead o) cfg' = Some cfg2 ->
    requested (trace (engine cfg2)) =
    requested (trace (engine cfg)) ++ [nextQuery r].
Proof.
  intros cfg c r cfg'.
  assert (Q : quiet c) by (intros s x; reflexivity).
  assert (M : forall s x, more (c s x) = false) by (intros s x; reflexivity).
  assert (K : kept (_resultsToSend (engine cfg)) (results r) <> [])
    by (simpl; discriminate).
  assert (St : step (Callback c r) cfg = Some cfg') by reflexivity.
  split; [reflexivity|]. split; [exact Q|]. split; [exact M|].
  split; [reflexivity|]. split; [exact K|]. split; [exact St|].
  exact (full_buffer_queues_nothing cfg c r cfg' eq_refl Q M eq_refl K St).
Defined.

Lemma late_page_is_dropped_witness :
  let s : ResourceStream string := end_ (engine (pull Returns (start oneResult))) in
  let c := eager in
  let r := page ["a"; "b"] (Some cursor) in
  err r = None /\
  _ended s = true /\
  pushed (trace (handler c r s)) = pushed (trace s) /\
  immediates (trace (handler c r s)) = immediates (trace s) /\
  requested (trace (handler c r s)) = requested (trace s) /\
  _ended (handler c r s) = true /\
  _requestsMade (handler c r s) = _requestsMade s + 1 /\
  _nextQuery (handler c r s) = nextQuery r /\
  _resultsToSend (handler c r s) = spend (_resultsToSend s) (results r) /\
  _reading (handler c r s) = false.
Proof.
  intros s c r.
  do 2 (split; [reflexivity|]).
  exact (late_page_is_dropped c r s eq_refl eq_refl).
Defined.

Lemma call_cap_below_two_witness :
  let args := {| query := Some ∅; maxApiCalls := 0; maxResults := -1 |} in
  let cfg : Config string := pull Returns (start args) in
  let c := eager in
  let r := page ["a"] (Some cursor) in
  let cfg' := {| engine := handler c r (engine cfg); inflight := 0;
                 fired := 0; uncaught := [] |} in
  maxApiCalls args <> -1 /\
  maxApiCalls args <= 1 /\
  reach anytime args cfg /\
  err r = None /\
  step (Callback c r) cfg = Some cfg' /\
  fetches (pull (T:=string) Returns (start args)) = 1%nat /\
  _ended (engine cfg') = true.
Proof.
  intros args cfg c r cfg'.
  assert (N1 : maxApiCalls args <> -1) by (simpl; lia).
  assert (N2 : maxApiCalls args <= 1) by (simpl; lia).
  assert (R : reach anytime args cfg).
  { apply (reach_step _ _ (start args) (HostRead Returns));
      [apply reach_here|reflexivity|reflexivity]. }
  assert (St : step (Callback c r) cfg = Some cfg') by reflexivity.
  split; [exact N1|]. split; [exact N2|]. split; [exact R|].
  split; [reflexivity|]. split; [exact St|].
  exact (call_cap_below_two args cfg c r cfg' N1 N2 R eq_refl St).
Defined.

Lemma results_cap_below_one_witness :
  let args := {| query := Some ∅; maxApiCalls := -1; maxResults := 0 |} in
  let cfg : Config string := pull Returns (start args) in
  maxResults args <> -1 /\
  maxResults args <= 0 /\
  reach anytime args cfg /\
  fetches (pull (T:=string) Returns (start args)) = 1%nat /\
  pushed (trace (engine cfg)) = [] /\
  forall c r cfg', err r = None -> step (Callback c r) cfg = Some cfg' ->
    _ended (engine cfg') = true.
Proof.
  intros args cfg.
  assert (K1 : maxResults args <> -1) by (simpl; lia).
  assert (K2 : maxResults args <= 0) by (simpl; lia).
  assert (R : reach anytime args cfg).
  { apply (reach_step _ _ (start args) (HostRead Returns));
      [apply reach_here|reflexivity|reflexivity]. }
  split; [exact K1|]. split; [exact K2|]. split; [exact R|].
  exact (results_cap_below_one args cfg K1 K2 R).
Defined.

Lemma listener_end_cuts_page_witness :
  let P := String.eqb "b" in
  let r := page ["a"; "b"; "c"] (Some cursor) in
  let s : ResourceStream string := engine (pull Returns (start unbounded)) in
  err r = None /\
  _ended s = false /\
  let items := kept (_resultsToSend s) (results r) in
  let ends := existsb P items || finishes r s in
  pushed (trace (handler (stopWhen P) r s)) = pushed (trace s) ++ through P items /\
  _ended (handler (stopWhen P) r s) = ends /\
  immediates (trace (handler (stopWhen P) r s)) =
    (immediates (trace s) + if ends then 0 else 1)%nat /\
  requested (trace (handler (stopWhen P) r s)) = requested (trace s).
Proof.
  intros P r s.
  do 2 (split; [reflexivity|]).
  exact (listener_end_cuts_page P r s eq_refl eq_refl).
Defined.

(** What [delivered] comes to on two pages [a, b, c] and [d]. *)
Example delivered_two_pages :
  let pages := [page ["a"; "b"; "c"] (Some cursor); page ["d"] None] in
  delivered unbounded pages = ["a"; "b"; "c"; "d"] /\
  delivered oneResult pages = ["a"] /\
  delivered twoCalls (pages ++ pages) = ["a"; "b"; "c"; "d"] /\
  delivered {| query := None; maxApiCalls := 1; maxResults := 2 |} pages = ["a"; "b"] /\
  delivered unbounded (failure "err" ["x"] :: pages) = [].
Proof. repeat split. Qed.
